(** * The AHT30 logger (src/main.cpp): retention store, queries, sampling

    A shallow embedding of the time-series store of the firmware: the
    append path ([appendReading]), the compaction path ([pruneOlderThan],
    [maybePrune]), the two HTTP queries ([handleLatest],
    [sendHistorySince], [handleHistory]) and the sampling loop ([loop]).

    Platform conventions (ESP32, ILP32): [int], [long] and [time_t] are
    32-bit two's complement integers, [uint32_t] is 32-bit unsigned,
    [float] is IEEE-754 binary32 and [double] binary64.  The source moves
    freely between [time_t] and [long] ([(long)ts] for [%ld],
    [(time_t) ... toInt()]), which is the identity at that width.
    Integers are [Z] with the wrap-around written where the code computes;
    floats are [spec_float] of the Standard Library. *)

From Stdlib Require Import ZArith List Ascii String Bool Lia.
From Stdlib Require Import Floats.SpecFloat.
From stdpp Require Import gmap strings.

Import ListNotations.
Local Open Scope Z_scope.

(** Text (an Arduino [String], the bytes of a file) is a list of characters. *)
Abbreviation text := (list ascii).

Definition LF : ascii := "010"%char.
Definition CR : ascii := "013"%char.
Definition NUL : ascii := "000"%char.
Definition COMMA : ascii := ","%char.

Definition txt (s : string) : text := list_ascii_of_string s.

Definition code (c : ascii) : Z := Z.of_nat (nat_of_ascii c).

Definition len (s : text) : Z := Z.of_nat (length s).

(** ** Machine integers *)

Definition LONG_MAX : Z := 2147483647.
Definition LONG_MIN : Z := -2147483648.

(** Two's complement reduction to 32 bits ([int], [long], [time_t]). *)
Definition wrap32 (z : Z) : Z := (z + 2147483648) mod 4294967296 - 2147483648.

(** Reduction to [uint32_t]. *)
Definition wrap_u32 (z : Z) : Z := z mod 4294967296.

(** ** The Arduino [String] operations the program calls

    These follow the Arduino core (WString.cpp): [trim] strips [isspace]
    characters at both ends, [indexOf] is [strchr] (so it stops at a NUL),
    [substring] clamps its bounds, [toInt] is [atol] and [toFloat] is
    [atof] narrowed to [float]. *)
Module WString.

Definition isspace (c : ascii) : bool :=
  (code c =? 32) || ((9 <=? code c) && (code c <=? 13)).

Definition isdigit (c : ascii) : bool :=
  (48 <=? code c) && (code c <=? 57).

Fixpoint ltrim (s : text) : text :=
  match s with
  | c :: s' => if isspace c then ltrim s' else s
  | [] => []
  end.

Definition trim (s : text) : text := rev (ltrim (rev (ltrim s))).

(** [strchr]: offset of the first [ch], searching up to the first NUL. *)
Fixpoint strchr (ch : ascii) (s : text) : option nat :=
  match s with
  | [] => None
  | c :: s' =>
      if Ascii.eqb c ch then Some O
      else if Ascii.eqb c NUL then None
      else option_map S (strchr ch s')
  end.

(** [indexOf(ch, fromIndex)]: -1 when [fromIndex >= len] or not found. *)
Definition indexOfFrom (ch : ascii) (from : Z) (s : text) : Z :=
  if len s <=? from then -1
  else match strchr ch (skipn (Z.to_nat from) s) with
       | Some i => from + Z.of_nat i
       | None => -1
       end.

Definition indexOf (ch : ascii) (s : text) : Z := indexOfFrom ch 0 s.

(** [substring(left, right)]: bounds swapped when out of order, empty when
    [left >= len], [right] clamped to [len]. *)
Definition substring (left right : Z) (s : text) : text :=
  let l := Z.min left right in
  let r := Z.max left right in
  if len s <=? l then []
  else firstn (Z.to_nat (Z.min r (len s) - l)) (skipn (Z.to_nat l) s).

(** [substring(left)] runs to the end of the string. *)
Definition substringFrom (left : Z) (s : text) : text :=
  substring left (len s) s.

(** The run of decimal digits at the head of [s], accumulated on [acc]. *)
Fixpoint digits_val (acc : Z) (s : text) : Z :=
  match s with
  | c :: s' => if isdigit c then digits_val (acc * 10 + (code c - 48)) s' else acc
  | [] => acc
  end.

Definition clamp_long (z : Z) : Z := Z.max LONG_MIN (Z.min LONG_MAX z).

(** [toInt] = [atol] = [strtol(s, NULL, 10)]: leading white space, an
    optional sign, digits; saturating at the ends of [long]. *)
Definition toInt (s : text) : Z :=
  match ltrim s with
  | c :: r =>
      if Ascii.eqb c "-" then clamp_long (- digits_val 0 r)
      else if Ascii.eqb c "+" then clamp_long (digits_val 0 r)
      else clamp_long (digits_val 0 (c :: r))
  | [] => 0
  end.

End WString.
Import WString.

(** ** Floating point

    [float] values are [spec_float]s of binary32; [atof] computes in
    binary64. *)
Abbreviation float := spec_float.

Definition prec32 : Z := 24.
Definition emax32 : Z := 128.
Definition prec64 : Z := 53.
Definition emax64 : Z := 1024.

Definition isnan (f : float) : bool :=
  match f with S754_nan => true | _ => false end.

(** C's [<] on floats: false as soon as one side is NaN. *)
Definition flt (x y : float) : bool := SFltb x y.
Definition fle (x y : float) : bool := SFleb x y.

(** An integer constant converted to [float] (exact for the constants of
    the program). *)
Definition float_of_int (z : Z) : float := binary_normalize prec32 emax32 z 0 false.

(** The [(float)] conversion of a [double]: round to nearest, ties to even. *)
Definition narrow (d : spec_float) : float :=
  match d with
  | S754_finite s m e => binary_round prec32 emax32 s m e
  | _ => d
  end.

(** The binary float of precision [prec] nearest to [(-1)^s * m * 10^e]. *)
Definition round_decimal (prec emax : Z) (s : bool) (m e : Z) : spec_float :=
  match m with
  | Zpos p =>
      if 0 <=? e then binary_normalize prec emax (cond_Zopp s (m * 10 ^ e)) 0 s
      else SFdiv prec emax (S754_finite s p 0)
                           (S754_finite false (Z.to_pos (10 ^ (- e))) 0)
  | _ => S754_zero s
  end.

(** ** [printf] conversions used by the writer *)
Module Printf.

Definition digit (d : Z) : ascii := ascii_of_nat (Z.to_nat (48 + d)).

Fixpoint dec_loop (fuel : nat) (n : Z) (acc : text) : text :=
  match fuel with
  | O => acc
  | S k =>
      let acc' := digit (n mod 10) :: acc in
      if n <? 10 then acc' else dec_loop k (n / 10) acc'
  end.

(** Decimal digits of a non-negative integer, most significant first. *)
Definition dec (n : Z) : text := dec_loop (S (Z.to_nat (Z.log2 n))) n [].

(** [%ld] *)
Definition fmt_ld (z : Z) : text :=
  if z <? 0 then "-"%char :: dec (- z) else dec z.

(** The integer nearest to [m * 2^e * 100], ties to even: the value
    [%.2f] prints, in hundredths. *)
Definition cents (m : positive) (e : Z) : Z :=
  if 0 <=? e then Zpos m * 2 ^ e * 100
  else
    let d := 2 ^ (- e) in
    let q := (Zpos m * 100) / d in
    let r := (Zpos m * 100) mod d in
    if 2 * r <? d then q
    else if d <? 2 * r then q + 1
    else if Z.even q then q else q + 1.

Definition fixed2 (n : Z) : text :=
  dec (n / 100) ++ "."%char :: digit (n / 10 mod 10) :: digit (n mod 10) :: [].

Definition sign_text (s : bool) : text := if s then ["-"%char] else [].

(** [%.2f] of a [float] (promoted to [double], which changes no value). *)
Definition fmt_2f (f : float) : text :=
  match f with
  | S754_nan => txt "nan"
  | S754_infinity s => sign_text s ++ txt "inf"
  | S754_zero s => sign_text s ++ fixed2 0
  | S754_finite s m e => sign_text s ++ fixed2 (cents m e)
  end.

End Printf.
Import Printf.

(** ** [toFloat]

    [String::toFloat] is [atof] narrowed to [float].  The model reads the
    decimal forms of [strtod]: white space, a sign, digits with an optional
    fraction, an optional exponent, or [inf]/[nan]; anything else is 0.
    (Hexadecimal floats, which the logger never writes, are read as their
    leading zero.) *)
Module Strtod.

(** Digits at the head of [s]: accumulated value, how many, and the rest. *)
Fixpoint scan_digits (acc cnt : Z) (s : text) : Z * Z * text :=
  match s with
  | c :: s' =>
      if isdigit c then scan_digits (acc * 10 + (code c - 48)) (cnt + 1) s'
      else (acc, cnt, s)
  | [] => (acc, cnt, [])
  end.

Definition lower (c : ascii) : ascii :=
  if (65 <=? code c) && (code c <=? 90)
  then ascii_of_nat (Z.to_nat (code c + 32)) else c.

(** Does [s] start with the keyword [kw], letter case ignored? *)
Fixpoint starts_with (kw : text) (s : text) : bool :=
  match kw, s with
  | [], _ => true
  | k :: kw', c :: s' => Ascii.eqb (lower c) k && starts_with kw' s'
  | _ :: _, [] => false
  end.

Definition split_sign (s : text) : bool * text :=
  match s with
  | c :: r =>
      if Ascii.eqb c "-" then (true, r)
      else if Ascii.eqb c "+" then (false, r)
      else (false, s)
  | [] => (false, [])
  end.

(** The exponent part [e[+-]ddd], 0 when absent or without digits. *)
Definition scan_exponent (s : text) : Z :=
  match s with
  | c :: r =>
      if Ascii.eqb (lower c) "e" then
        let '(neg, r') := split_sign r in
        let '(v, cnt, _) := scan_digits 0 0 r' in
        if cnt =? 0 then 0 else if neg then - v else v
      else 0
  | [] => 0
  end.

Definition strtod (s : text) : spec_float :=
  let '(neg, r) := split_sign (ltrim s) in
  let '(ip, icnt, r1) := scan_digits 0 0 r in
  let '(m, fcnt, r2) :=
    match r1 with
    | c :: r1' => if Ascii.eqb c "." then scan_digits ip 0 r1' else (ip, 0, r1)
    | [] => (ip, 0, r1)
    end in
  if icnt + fcnt =? 0 then
    if starts_with (txt "inf") r then S754_infinity neg
    else if starts_with (txt "nan") r then S754_nan
    else S754_zero false
  else round_decimal prec64 emax64 neg m (scan_exponent r2 - fcnt).

End Strtod.

Definition toFloat (s : text) : float := narrow (Strtod.strtod s).

(** ** The flash file system and the streams read from it

    [LittleFS] is a finite map from paths to file contents.  A mounted,
    working file system is modelled: opening for reading fails exactly when
    the file is absent, opening for writing or appending creates it. *)
Module LittleFS.

Definition open_read (fs : gmap string text) (path : string) : option text :=
  fs !! path.

(** [FILE_WRITE]: the file is created or truncated, then holds what was
    written when it is closed. *)
Definition write_file (fs : gmap string text) (path : string) (data : text)
  : gmap string text :=
  <[path := data]> fs.

(** [FILE_APPEND] *)
Definition append_file (fs : gmap string text) (path : string) (data : text)
  : gmap string text :=
  <[path := default [] (fs !! path) ++ data]> fs.

Definition remove (fs : gmap string text) (path : string) : gmap string text :=
  delete path fs.

Definition rename (fs : gmap string text) (from to : string) : gmap string text :=
  match fs !! from with
  | Some data => <[to := data]> (delete from fs)
  | None => fs
  end.

End LittleFS.

(** [Stream::readStringUntil]: the characters before the first [term], which
    is consumed; everything when there is none.  Returns the line and the
    unread rest. *)
Fixpoint readStringUntil (term : ascii) (s : text) : text * text :=
  match s with
  | [] => ([], [])
  | c :: s' =>
      if Ascii.eqb c term then ([], s')
      else let '(l, r) := readStringUntil term s' in (c :: l, r)
  end.

(** The lines successive iterations of
    [while (f.available()) { line = f.readStringUntil('\n'); ... }] see.
    Every iteration consumes a character, so [length s] rounds suffice. *)
Fixpoint read_lines (fuel : nat) (s : text) : list text :=
  match fuel with
  | O => []
  | S k =>
      match s with
      | [] => []
      | _ :: _ => let '(l, r) := readStringUntil LF s in l :: read_lines k r
      end
  end.

Definition file_lines (s : text) : list text := read_lines (length s) s.

(** ** Constants of main.cpp *)

Definition LOG_PATH : string := "/aht30.csv".
Definition TMP_PATH : string := "/tmp.csv".
Definition SAMPLE_MS : Z := 60 * 1000.
Definition PRUNE_EVERY_MS : Z := 6 * 60 * 60 * 1000.
Definition KEEP_SECONDS : Z := 7 * 24 * 3600.

(** The literal 1700000000 of the time sanity checks. *)
Definition TIME_FLOOR : Z := 1700000000.

(** ** appendReading *)

(** The line [printf("%ld,%.2f,%.2f\n", (long)ts, tempC, hum)] writes. *)
Definition encode (ts : Z) (tempC hum : float) : text :=
  fmt_ld (wrap32 ts) ++ COMMA :: fmt_2f tempC ++ COMMA :: fmt_2f hum ++ [LF].

Definition appendReading (ts : Z) (tempC hum : float) (fs : gmap string text)
  : gmap string text :=
  LittleFS.append_file fs LOG_PATH (encode ts tempC hum).

(** ** pruneOlderThan *)

(** One iteration of the copy loop; [out] is what the temporary file holds.
    [println] ends the line with CR LF. *)
Definition prune_step (cutoffTs : Z) (out : text) (raw : text) : text :=
  let line := trim raw in
  if len line <? 5 then out
  else
    let c1 := indexOf COMMA line in
    if c1 <=? 0 then out
    else
      let ts := toInt (substring 0 c1 line) in
      if cutoffTs <=? ts then out ++ line ++ [CR; LF] else out.

Definition pruneOlderThan (cutoffTs : Z) (fs : gmap string text) : gmap string text :=
  match LittleFS.open_read fs LOG_PATH with
  | None => fs
  | Some inp =>
      let out := fold_left (prune_step cutoffTs) (file_lines inp) [] in
      let fs1 := LittleFS.write_file fs TMP_PATH out in
      let fs2 := LittleFS.remove fs1 LOG_PATH in
      LittleFS.rename fs2 TMP_PATH LOG_PATH
  end.

(** ** HTTP responses *)

(** The [StaticJsonDocument] a handler fills in. *)
Record doc := mkdoc { ts : Z; tempC : float; humidity : float }.

(** What is sent: literal text, an error object [{"error": name}], or a
    serialised document. *)
Inductive chunk :=
| Lit (s : string)
| ErrorJson (name : string)
| Json (d : doc).

Record response := mkresp { status : Z; chunks : list chunk }.

(** The documents of a response, in the order sent. *)
Fixpoint docs_of (cs : list chunk) : list doc :=
  match cs with
  | Json d :: cs' => d :: docs_of cs'
  | _ :: cs' => docs_of cs'
  | [] => []
  end.

(** ** handleLatest *)

Definition latest_step (lastLine : text) (raw : text) : text :=
  let line := trim raw in
  if 5 <? len line then line else lastLine.

Definition handleLatest (fs : gmap string text) : response :=
  match LittleFS.open_read fs LOG_PATH with
  | None => mkresp 404 [ErrorJson "no_data"]
  | Some f =>
      let lastLine := fold_left latest_step (file_lines f) [] in
      if len lastLine <? 5 then mkresp 404 [ErrorJson "no_data"]
      else
        let c1 := indexOf COMMA lastLine in
        let c2 := indexOfFrom COMMA (c1 + 1) lastLine in
        if (c1 <=? 0) || (c2 <=? c1) then mkresp 500 [ErrorJson "bad_log_format"]
        else
          let ts := toInt (substring 0 c1 lastLine) in
          let t := toFloat (substring (c1 + 1) c2 lastLine) in
          let h := toFloat (substringFrom (c2 + 1) lastLine) in
          mkresp 200 [Json (mkdoc ts t h)]
  end.

(** ** sendHistorySince *)

(** One iteration of the scan; the state is the [first] flag and the chunks
    sent so far. *)
Definition since_step (sinceTs : Z) (st : bool * list chunk) (raw : text)
  : bool * list chunk :=
  let '(first, sent) := st in
  let line := trim raw in
  if len line <? 5 then st
  else
    let c1 := indexOf COMMA line in
    let c2 := indexOfFrom COMMA (c1 + 1) line in
    if (c1 <=? 0) || (c2 <=? c1) then st
    else
      let ts := toInt (substring 0 c1 line) in
      if ts <? sinceTs then st
      else
        let t := toFloat (substring (c1 + 1) c2 line) in
        let h := toFloat (substringFrom (c2 + 1) line) in
        let obj := Json (mkdoc ts t h) in
        (false, sent ++ (if first then [] else [Lit ","]) ++ [obj]).

Definition sendHistorySince (sinceTs : Z) (fs : gmap string text) : response :=
  match LittleFS.open_read fs LOG_PATH with
  | None => mkresp 200 [Lit "[]"]
  | Some f =>
      let '(_, sent) := fold_left (since_step sinceTs) (file_lines f) (true, [Lit "["]) in
      mkresp 200 (sent ++ [Lit "]"])
  end.

(** ** handleHistory *)

(** Lines 187-199: the cutoff of a history request with query arguments
    [args], when [nowUtc()] returns [nowT]. *)
Definition history_cutoff (args : gmap string text) (nowT : Z) : Z :=
  match args !! "since" with
  | Some a => toInt a
  | None =>
      match args !! "days" with
      | Some a =>
          let days := toInt a in
          let days := if days <=? 0 then 7 else days in
          if TIME_FLOOR <? nowT
          then wrap32 (nowT - wrap32 (wrap32 (days * 24) * 3600))
          else 0
      | None =>
          if TIME_FLOOR <? nowT then wrap32 (nowT - KEEP_SECONDS) else 0
      end
  end.

Definition handleHistory (args : gmap string text) (nowT : Z) (fs : gmap string text)
  : response :=
  sendHistorySince (history_cutoff args nowT) fs.

(** ** The record decoder the readers share

    Lines 157-167 without the cutoff test: what a trimmed line decodes to. *)
Definition decode (line : text) : option doc :=
  if len line <? 5 then None
  else
    let c1 := indexOf COMMA line in
    let c2 := indexOfFrom COMMA (c1 + 1) line in
    if (c1 <=? 0) || (c2 <=? c1) then None
    else Some (mkdoc (toInt (substring 0 c1 line))
                     (toFloat (substring (c1 + 1) c2 line))
                     (toFloat (substringFrom (c2 + 1) line))).

(** The records of a log: its decodable lines, in stored order. *)
Definition records (log : text) : list doc :=
  omap decode (map trim (file_lines log)).

(** The test of lines 71-77: does compaction copy this trimmed line? *)
Definition prune_keeps (cutoffTs : Z) (line : text) : bool :=
  negb (len line <? 5) && negb (indexOf COMMA line <=? 0)
  && (cutoffTs <=? toInt (substring 0 (indexOf COMMA line) line)).

(** ** Device state, sampling and compaction triggers *)

(** The mutable state of the program: the flash file system and the two
    tick stamps ([uint32_t]). *)
Record device := mkdevice {
  flash : gmap string text;
  lastSampleMs : Z;
  lastPruneMs : Z
}.

(** What one pass of [loop] observes: the tick counter, the wall clock and
    the two sensor channels. *)
Record env := mkenv {
  millis : Z;
  nowUtc : Z;
  readTemperature : float;
  readHumidity : float
}.

Definition maybePrune (e : env) (d : device) : device :=
  if wrap_u32 (millis e - lastPruneMs d) <? PRUNE_EVERY_MS then d
  else
    let d1 := mkdevice (flash d) (lastSampleMs d) (millis e) in
    let t := nowUtc e in
    if t <=? TIME_FLOOR then d1
    else
      let cutoff := wrap32 (t - KEEP_SECONDS) in
      mkdevice (pruneOlderThan cutoff (flash d1)) (lastSampleMs d1) (lastPruneMs d1).

(** Lines 271-286: read the sensor, check the sample, log it. *)
Definition sample (e : env) (d : device) : device :=
  let t := readTemperature e in
  let h := readHumidity e in
  if isnan t || isnan h
     || flt t (float_of_int (-40)) || flt (float_of_int 125) t
     || flt h (float_of_int 0) || flt (float_of_int 100) h
  then d
  else
    let ts := nowUtc e in
    if TIME_FLOOR <? ts
    then mkdevice (appendReading ts t h (flash d)) (lastSampleMs d) (lastPruneMs d)
    else d.

(** One pass of [loop]; serving a client reads the log and leaves the state
    as it is. *)
Definition loop (e : env) (d : device) : device :=
  if SAMPLE_MS <=? wrap_u32 (millis e - lastSampleMs d) then
    let d1 := mkdevice (flash d) (wrap_u32 (lastSampleMs d + SAMPLE_MS)) (lastPruneMs d) in
    maybePrune e (sample e d1)
  else d.

(** ** setup *)

(** [ensureTime]: poll the wall clock every 200 ms of up time until it
    passes the floor or [timeoutMs] have gone by.  [clock] gives the wall
    clock at an up time in milliseconds, [start] is the up time at entry;
    the result carries the up time elapsed at exit. *)
Fixpoint ensureTime_loop (fuel : nat) (clock : Z -> Z) (start elapsed timeoutMs : Z)
  : bool * Z :=
  match fuel with
  | O => (false, elapsed)
  | S k =>
      if elapsed <? timeoutMs then
        if TIME_FLOOR <? clock (start + elapsed) then (true, elapsed)
        else ensureTime_loop k clock start (elapsed + 200) timeoutMs
      else (false, elapsed)
  end.

Definition ensureTime (clock : Z -> Z) (start timeoutMs : Z) : bool * Z :=
  ensureTime_loop (S (Z.to_nat (timeoutMs / 200))) clock start 0 timeoutMs.

(** Lines 219-222: create the log when it is absent. *)
Definition create_log (fs : gmap string text) : gmap string text :=
  match fs !! LOG_PATH with
  | Some _ => fs
  | None => LittleFS.write_file fs LOG_PATH []
  end.

(** The storage and time part of [setup] (lines 215-222 and 244-258): the
    log is created, the clock awaited, the startup compaction run and the
    tick stamps initialised.  [start] is the up time when [ensureTime] is
    entered. *)
Definition setup (clock : Z -> Z) (start : Z) (fs : gmap string text) : device :=
  let fs0 := create_log fs in
  let '(_, elapsed) := ensureTime clock start 8000 in
  let up := start + elapsed in
  let t := clock up in
  let fs1 := if TIME_FLOOR <? t then pruneOlderThan (wrap32 (t - KEEP_SECONDS)) fs0 else fs0 in
  mkdevice fs1 (wrap_u32 up) (wrap_u32 up).

(** ** Notions used to state the properties *)

(** A log made of whole lines: empty, or ending with a line feed. *)
Definition complete (log : text) : bool :=
  match rev log with
  | [] => true
  | c :: _ => Ascii.eqb c LF
  end.

(** What [println] writes for a list of lines. *)
Definition crlf_lines (ls : list text) : text :=
  concat (map (fun l => l ++ [CR; LF]) ls).

(** No white space at either end: a fixed point of [trim]. *)
Definition tight (s : text) : Prop := ltrim s = s /\ ltrim (rev s) = rev s.

(** A character that can stand inside a field: not white space, not a
    comma, not NUL. *)
Definition fieldchar (c : ascii) : bool :=
  negb (isspace c) && negb (Ascii.eqb c COMMA) && negb (Ascii.eqb c NUL).

(** Zero or a finite non-zero value: neither NaN nor an infinity. *)
Definition finite (f : float) : bool :=
  match f with
  | S754_zero _ | S754_finite _ _ _ => true
  | _ => false
  end.

(** A Reading, as handed to [appendReading]. *)
Record reading := mkreading { r_ts : Z; r_temp : float; r_hum : float }.

Definition append (r : reading) (fs : gmap string text) : gmap string text :=
  appendReading (r_ts r) (r_temp r) (r_hum r) fs.

Definition in_range (lo hi : Z) (f : float) : Prop :=
  fle (float_of_int lo) f = true /\ fle f (float_of_int hi) = true.

(** A valid Reading: a non-negative timestamp, temperature in [-40, 125],
    humidity in [0, 100]. *)
Definition valid_reading (r : reading) : Prop :=
  0 <= r_ts r <= LONG_MAX /\
  in_range (-40) 125 (r_temp r) /\
  in_range 0 100 (r_hum r).

(** The float nearest to [n] hundredths, with sign [s]. *)
Definition float_of_cents (s : bool) (n : Z) : float :=
  narrow (round_decimal prec64 emax64 s n (-2)).

(** A float rounded to two decimals (ties to even), as a float again. *)
Definition round2 (f : float) : float :=
  match f with
  | S754_finite s m e => float_of_cents s (cents m e)
  | _ => f
  end.

Definition sign_of (f : float) : bool :=
  match f with
  | S754_zero s | S754_infinity s | S754_finite s _ _ => s
  | S754_nan => false
  end.

(** [n] hundredths lie within half a hundredth of the magnitude of [f]
    (stated on integers: the magnitude of a finite [f] is [m * 2^e]). *)
Definition half_cent_near (f : float) (n : Z) : Prop :=
  match f with
  | S754_zero _ => n = 0
  | S754_finite _ m e =>
      if 0 <=? e then n = Zpos m * 2 ^ e * 100
      else 2 * Z.abs (Zpos m * 100 - n * 2 ^ (- e)) <= 2 ^ (- e)
  | _ => False
  end.

Definition float_eqb (x y : float) : bool :=
  match x, y with
  | S754_zero a, S754_zero b => Bool.eqb a b
  | S754_infinity a, S754_infinity b => Bool.eqb a b
  | S754_nan, S754_nan => true
  | S754_finite a m e, S754_finite b m' e' => Bool.eqb a b && Pos.eqb m m' && Z.eqb e e'
  | _, _ => false
  end.

(** Does [p] hold on the [k] integers from [n] on? *)
Fixpoint all_from (k : nat) (n : Z) (p : Z -> bool) : bool :=
  match k with
  | O => true
  | S k' => p n && all_from k' (n + 1) p
  end.

(** Is the float nearest to [n] hundredths read back unchanged after being
    printed? *)
Definition reprints (s : bool) (n : Z) : bool :=
  float_eqb (round2 (float_of_cents s n)) (float_of_cents s n).

(** The record a reader gets back for a Reading. *)
Definition stored (r : reading) : doc :=
  mkdoc (r_ts r) (round2 (r_temp r)) (round2 (r_hum r)).

(** The line of a Reading without its terminator. *)
Definition encode_body (t0 : Z) (t h : float) : text :=
  fmt_ld (wrap32 t0) ++ COMMA :: fmt_2f t ++ COMMA :: fmt_2f h.

(** The log of the specification's scenario: three Readings appended to an
    empty log. *)
Definition scenario_fs : gmap string text :=
  appendReading 1120 (toFloat (txt "21.0")) (toFloat (txt "49.5"))
    (appendReading 1060 (toFloat (txt "20.5")) (toFloat (txt "51.0"))
       (appendReading 1000 (toFloat (txt "20.0")) (toFloat (txt "50.0"))
          {[ LOG_PATH := [] ]})).

(** ** Notions used to state further properties *)

(** The chunks of a JSON array body: the documents with a comma between
    neighbours. *)
Definition json_rest (ds : list doc) : list chunk :=
  concat (map (fun d => [Lit ","; Json d]) ds).

Definition json_items (ds : list doc) : list chunk :=
  match ds with
  | [] => []
  | d :: rest => Json d :: json_rest rest
  end.

(** The trimmed lines of a log that the latest query considers. *)
Definition long_lines (log : text) : list text :=
  List.filter (fun l => 5 <? len l) (map trim (file_lines log)).

(** What compaction with cutoff [cutoffTs] writes for a log. *)
Definition compacted (cutoffTs : Z) (log : text) : text :=
  crlf_lines (List.filter (prune_keeps cutoffTs) (map trim (file_lines log))).

(** The log after a list of Readings is appended to an empty one. *)
Definition written (rs : list reading) : text :=
  concat (map (fun r => encode (r_ts r) (r_temp r) (r_hum r)) rs).

(** Is the wall clock above the floor at the [k]-th poll of [ensureTime]? *)
Definition poll_valid (clock : Z -> Z) (start k : Z) : bool :=
  TIME_FLOOR <? clock (start + 200 * k).

(** * Properties *)

(** ** Reading lines *)

Section Lines.

Lemma readStringUntil_length (s l r : text) :
  readStringUntil LF s = (l, r) -> (length r <= length s)%nat.
Proof.
  revert l r. induction s as [|c s IH]; intros l r; simpl.
  - intros [= <- <-]. simpl. lia.
  - destruct (Ascii.eqb c LF).
    + intros [= <- <-]. lia.
    + destruct (readStringUntil LF s) as [l' r'] eqn:E.
      intros [= <- <-]. specialize (IH _ _ eq_refl). lia.
Qed.

(** On a non-empty stream a call consumes at least one character. *)
Lemma readStringUntil_consumes (c : ascii) (s l r : text) :
  readStringUntil LF (c :: s) = (l, r) -> (length r <= length s)%nat.
Proof.
  simpl. destruct (Ascii.eqb c LF).
  - intros [= <- <-]. lia.
  - destruct (readStringUntil LF s) as [l' r'] eqn:E'.
    intros [= <- <-]. eapply readStringUntil_length; eauto.
Qed.

Lemma readStringUntil_no_LF (s l r : text) :
  readStringUntil LF s = (l, r) -> ~ In LF l.
Proof.
  revert l r. induction s as [|c s IH]; intros l r; simpl.
  - intros [= <- <-]. auto.
  - destruct (Ascii.eqb c LF) eqn:Ec.
    + intros [= <- <-]. auto.
    + destruct (readStringUntil LF s) as [l' r'] eqn:E.
      intros [= <- <-] [H|H].
      * subst c. rewrite Ascii.eqb_refl in Ec. discriminate.
      * exact (IH _ _ eq_refl H).
Qed.

Lemma readStringUntil_line (l r : text) :
  ~ In LF l -> readStringUntil LF (l ++ LF :: r) = (l, r).
Proof.
  induction l as [|c l IH]; intros Hl; simpl.
  - reflexivity.
  - destruct (Ascii.eqb c LF) eqn:Ec.
    + apply Ascii.eqb_eq in Ec. subst c. exfalso. apply Hl. now left.
    + rewrite IH; [reflexivity|]. intros H. apply Hl. now right.
Qed.

Lemma readStringUntil_eof (l : text) :
  ~ In LF l -> readStringUntil LF l = (l, []).
Proof.
  induction l as [|c l IH]; intros Hl; simpl.
  - reflexivity.
  - destruct (Ascii.eqb c LF) eqn:Ec.
    + apply Ascii.eqb_eq in Ec. subst c. exfalso. apply Hl. now left.
    + rewrite IH; [reflexivity|]. intros H. apply Hl. now right.
Qed.

(** The loop needs no more rounds than the file has characters. *)
Lemma read_lines_fuel (fuel : nat) (s : text) :
  (length s <= fuel)%nat -> read_lines fuel s = file_lines s.
Proof.
  unfold file_lines.
  remember (length s) as n eqn:Hn. revert s Hn fuel.
  induction n as [n IH] using lt_wf_ind. intros s Hn fuel Hf.
  destruct s as [|c s].
  - destruct fuel; subst n; reflexivity.
  - destruct fuel as [|k]; [simpl in Hn; lia|].
    subst n. cbn [length read_lines].
    destruct (readStringUntil LF (c :: s)) as [l r] eqn:E.
    f_equal.
    assert (Hr : (length r <= length s)%nat)
      by (eapply readStringUntil_consumes; eauto).
    simpl in Hf.
    rewrite (IH (length r)) with (s := r) (fuel := k); [|simpl; lia|reflexivity|lia].
    rewrite (IH (length r)) with (s := r) (fuel := length s); [|simpl; lia|reflexivity|lia].
    reflexivity.
Qed.

Lemma file_lines_nil : file_lines [] = [].
Proof. reflexivity. Qed.

(** The equation of the [while (f.available())] loop. *)
Lemma file_lines_step (c : ascii) (s : text) :
  file_lines (c :: s) =
  fst (readStringUntil LF (c :: s)) :: file_lines (snd (readStringUntil LF (c :: s))).
Proof.
  unfold file_lines at 1. cbn [length read_lines].
  destruct (readStringUntil LF (c :: s)) as [l r] eqn:E. cbn [fst snd].
  f_equal. apply read_lines_fuel.
  eapply readStringUntil_consumes; eauto.
Qed.

Lemma split_first_LF (s : text) :
  ~ In LF s \/ exists l r, s = l ++ LF :: r /\ ~ In LF l.
Proof.
  induction s as [|c s IH].
  - left. auto.
  - destruct (Ascii.eqb c LF) eqn:Ec.
    + apply Ascii.eqb_eq in Ec. subst c. right. exists [], s. auto.
    + apply Ascii.eqb_neq in Ec. destruct IH as [IH|(l & r & -> & Hl)].
      * left. intros [H|H]; auto.
      * right. exists (c :: l), r. split; [reflexivity|].
        intros [H|H]; auto.
Qed.

Lemma file_lines_cons (l r : text) :
  ~ In LF l -> file_lines (l ++ LF :: r) = l :: file_lines r.
Proof.
  intros Hl. pose proof (readStringUntil_line l r Hl) as E.
  destruct (l ++ LF :: r) as [|c s] eqn:Es.
  - destruct l; discriminate.
  - rewrite file_lines_step, E. reflexivity.
Qed.

Lemma file_lines_last (l : text) :
  ~ In LF l -> l <> [] -> file_lines l = [l].
Proof.
  intros Hl Hne. pose proof (readStringUntil_eof l Hl) as E.
  destruct l as [|c s]; [congruence|].
  rewrite file_lines_step, E. reflexivity.
Qed.

(** Induction along the lines of a file. *)
Lemma file_lines_ind (P : text -> Prop) :
  P [] ->
  (forall l r, ~ In LF l -> P r -> P (l ++ LF :: r)) ->
  (forall l, ~ In LF l -> l <> [] -> P l) ->
  forall s, P s.
Proof.
  intros Hnil Hcons Hlast s.
  remember (length s) as n eqn:Hn. revert s Hn.
  induction n as [n IH] using lt_wf_ind. intros s Hn.
  destruct (split_first_LF s) as [Hs|(l & r & -> & Hl)].
  - destruct s as [|c s]; [exact Hnil|]. apply Hlast; [exact Hs|discriminate].
  - apply Hcons; [exact Hl|].
    apply (IH (length r)); [|reflexivity].
    subst n. rewrite length_app. simpl. lia.
Qed.

Lemma file_lines_no_LF (s : text) :
  Forall (fun l => ~ In LF l) (file_lines s).
Proof.
  induction s as [|l r Hl IH|l Hl Hne] using file_lines_ind.
  - constructor.
  - rewrite file_lines_cons by exact Hl. constructor; assumption.
  - rewrite file_lines_last by assumption. constructor; [assumption|constructor].
Qed.

Lemma complete_tail (l r : text) : complete (l ++ LF :: r) = true -> complete r = true.
Proof.
  unfold complete. rewrite rev_app_distr. simpl. rewrite <- app_assoc.
  destruct (rev r) as [|c t]; [reflexivity|]. simpl. auto.
Qed.

Lemma complete_has_LF (l : text) : complete l = true -> l <> [] -> In LF l.
Proof.
  unfold complete. intros H Hne. apply in_rev.
  destruct (rev l) as [|c t] eqn:E.
  - apply (f_equal (@rev ascii)) in E. rewrite rev_involutive in E. simpl in E. congruence.
  - apply Ascii.eqb_eq in H. subst c. now left.
Qed.

(** Text appended after whole lines starts a line of its own. *)
Lemma file_lines_app (a b : text) :
  complete a = true -> file_lines (a ++ b) = file_lines a ++ file_lines b.
Proof.
  induction a as [|l r Hl IH|l Hl Hne] using file_lines_ind; intros Hc.
  - reflexivity.
  - rewrite <- app_assoc. simpl. rewrite !file_lines_cons by exact Hl.
    rewrite IH; [reflexivity|]. eapply complete_tail; eauto.
  - exfalso. apply Hl. now apply complete_has_LF.
Qed.

Lemma complete_app (a b : text) :
  complete b = true -> b <> [] -> complete (a ++ b) = true.
Proof.
  unfold complete. rewrite rev_app_distr. intros H Hne.
  destruct (rev b) as [|c t] eqn:E; [|exact H].
  apply (f_equal (@rev ascii)) in E. rewrite rev_involutive in E. simpl in E. congruence.
Qed.

End Lines.

(** ** [trim] *)

Section Trim.

Lemma ltrim_length (s : text) : (length (ltrim s) <= length s)%nat.
Proof.
  induction s as [|c s IH]; simpl; [lia|].
  destruct (isspace c); simpl; lia.
Qed.

Lemma ltrim_head (a : ascii) (s : text) :
  ltrim (a :: s) = a :: s -> isspace a = false.
Proof.
  simpl. destruct (isspace a); [|reflexivity].
  intros H. pose proof (ltrim_length s) as L. rewrite H in L. simpl in L. lia.
Qed.

Lemma ltrim_idem (s : text) : ltrim (ltrim s) = ltrim s.
Proof.
  induction s as [|c s IH]; simpl; [reflexivity|].
  destruct (isspace c) eqn:E; [exact IH|]. simpl. now rewrite E.
Qed.

Lemma ltrim_split (s : text) : exists sp, s = sp ++ ltrim s.
Proof.
  induction s as [|c s [sp IH]]; simpl.
  - now exists [].
  - destruct (isspace c).
    + exists (c :: sp). simpl. now f_equal.
    + now exists [].
Qed.

Lemma ltrim_In (c : ascii) (s : text) : In c (ltrim s) -> In c s.
Proof.
  destruct (ltrim_split s) as [sp E]. intros H. rewrite E.
  apply in_or_app. now right.
Qed.

Lemma trim_In (c : ascii) (s : text) : In c (trim s) -> In c s.
Proof.
  unfold trim. intros H. apply in_rev in H. apply ltrim_In in H.
  apply in_rev in H. now apply ltrim_In.
Qed.

Lemma tight_trim (s : text) : tight (trim s).
Proof.
  unfold tight, trim. set (y := ltrim s). split.
  - destruct (ltrim_split (rev y)) as [sp E].
    apply (f_equal (@rev ascii)) in E.
    rewrite rev_involutive, rev_app_distr in E.
    destruct (rev (ltrim (rev y))) as [|a p]; [reflexivity|].
    assert (Ha : isspace a = false).
    { apply (ltrim_head a (p ++ rev sp)). rewrite app_comm_cons, <- E.
      apply ltrim_idem. }
    simpl. now rewrite Ha.
  - rewrite rev_involutive. apply ltrim_idem.
Qed.

Lemma trim_tight (s : text) : tight s -> trim s = s.
Proof.
  intros [H1 H2]. unfold trim. rewrite H1, H2. apply rev_involutive.
Qed.

Lemma trim_idem (s : text) : trim (trim s) = trim s.
Proof. apply trim_tight, tight_trim. Qed.

(** A trailing white-space character (the CR [println] leaves) is trimmed
    away again. *)
Lemma trim_tight_space (s : text) (c : ascii) :
  tight s -> s <> [] -> isspace c = true -> trim (s ++ [c]) = s.
Proof.
  intros [H1 H2] Hne Hc. unfold trim.
  destruct s as [|a s]; [congruence|].
  pose proof (ltrim_head _ _ H1) as Ha.
  assert (E : ltrim ((a :: s) ++ [c]) = (a :: s) ++ [c]) by (simpl; now rewrite Ha).
  rewrite E, rev_app_distr.
  change (rev [c] ++ rev (a :: s)) with (c :: rev (a :: s)).
  cbn [ltrim]. rewrite Hc. rewrite H2. apply rev_involutive.
Qed.

Lemma tight_ends (a b : ascii) (s : text) :
  isspace a = false -> isspace b = false -> tight (a :: s ++ [b]).
Proof.
  intros Ha Hb. split.
  - simpl. now rewrite Ha.
  - change (a :: s ++ [b]) with ((a :: s) ++ [b]).
    rewrite rev_app_distr. simpl. now rewrite Hb.
Qed.

End Trim.

(** ** Compaction *)

Section Compaction.

Variable cutoffTs : Z.

Lemma prune_step_keeps (out raw : text) :
  prune_step cutoffTs out raw =
  if prune_keeps cutoffTs (trim raw) then out ++ trim raw ++ [CR; LF] else out.
Proof.
  unfold prune_step, prune_keeps.
  destruct (len (trim raw) <? 5); [reflexivity|].
  destruct (indexOf COMMA (trim raw) <=? 0); [reflexivity|].
  simpl. reflexivity.
Qed.

Lemma prune_fold (ls : list text) (acc : text) :
  fold_left (prune_step cutoffTs) ls acc =
  acc ++ crlf_lines (List.filter (prune_keeps cutoffTs) (map trim ls)).
Proof.
  revert acc. induction ls as [|raw ls IH]; intros acc; simpl.
  - unfold crlf_lines. simpl. now rewrite app_nil_r.
  - rewrite IH, prune_step_keeps.
    destruct (prune_keeps cutoffTs (trim raw)); [|reflexivity].
    unfold crlf_lines. simpl. now rewrite <- !app_assoc.
Qed.

Lemma file_lines_crlf (ks : list text) :
  Forall (fun l => ~ In LF l) ks ->
  file_lines (crlf_lines ks) = map (fun l => l ++ [CR]) ks.
Proof.
  induction 1 as [|k ks Hk _ IH]; [reflexivity|].
  unfold crlf_lines in *. simpl.
  replace ((k ++ [CR; LF]) ++ concat (map (fun l => l ++ [CR; LF]) ks))
    with ((k ++ [CR]) ++ LF :: concat (map (fun l => l ++ [CR; LF]) ks))
    by (now rewrite <- !app_assoc).
  rewrite file_lines_cons, IH; [reflexivity|].
  intros H. apply in_app_or in H. destruct H as [H|[H|[]]]; [now apply Hk|discriminate].
Qed.

Lemma prune_keeps_nonempty (l : text) : prune_keeps cutoffTs l = true -> l <> [].
Proof. intros H ->. discriminate. Qed.

(** The trimmed lines of the rewritten log are the trimmed lines of the
    old one that pass the test of the copy loop, in order. *)
Lemma compacted_lines (inp : text) :
  map trim (file_lines (fold_left (prune_step cutoffTs) (file_lines inp) [])) =
  List.filter (prune_keeps cutoffTs) (map trim (file_lines inp)).
Proof.
  rewrite prune_fold. simpl.
  pose proof (file_lines_no_LF inp) as Hno.
  induction (file_lines inp) as [|raw ls IH]; [reflexivity|].
  inversion Hno as [|? ? Hraw Hls]; subst. simpl.
  destruct (prune_keeps cutoffTs (trim raw)) eqn:Ek; [|now apply IH].
  unfold crlf_lines. simpl.
  replace ((trim raw ++ [CR; LF]) ++
           concat (map (fun l => l ++ [CR; LF])
                     (List.filter (prune_keeps cutoffTs) (map trim ls))))
    with ((trim raw ++ [CR]) ++ LF ::
           crlf_lines (List.filter (prune_keeps cutoffTs) (map trim ls)))
    by (unfold crlf_lines; now rewrite <- !app_assoc).
  rewrite file_lines_cons.
  - simpl. rewrite trim_tight_space;
      [|apply tight_trim|eapply prune_keeps_nonempty; eauto|reflexivity].
    f_equal. now apply IH.
  - intros H. apply in_app_or in H. destruct H as [H|[H|[]]]; [|discriminate].
    apply Hraw. eapply trim_In; eauto.
Qed.

Lemma pruneOlderThan_log (fs : gmap string text) (inp : text) :
  fs !! LOG_PATH = Some inp ->
  pruneOlderThan cutoffTs fs !! LOG_PATH =
  Some (fold_left (prune_step cutoffTs) (file_lines inp) []).
Proof.
  intros H. unfold pruneOlderThan, LittleFS.open_read. rewrite H.
  unfold LittleFS.rename, LittleFS.remove, LittleFS.write_file.
  assert (Hne : TMP_PATH <> LOG_PATH) by discriminate.
  rewrite lookup_delete_ne, lookup_insert_eq by congruence.
  apply lookup_insert_eq.
Qed.

Lemma pruneOlderThan_absent (fs : gmap string text) :
  fs !! LOG_PATH = None -> pruneOlderThan cutoffTs fs = fs.
Proof.
  intros H. unfold pruneOlderThan, LittleFS.open_read. now rewrite H.
Qed.

Lemma decode_keeps (l : text) (d : doc) :
  decode l = Some d -> prune_keeps cutoffTs l = (cutoffTs <=? ts d).
Proof.
  unfold decode, prune_keeps.
  destruct (len l <? 5); [discriminate|].
  destruct (indexOf COMMA l <=? 0); [discriminate|]. simpl.
  destruct (indexOfFrom COMMA (indexOf COMMA l + 1) l <=? indexOf COMMA l);
    [discriminate|].
  intros [= <-]. reflexivity.
Qed.

Lemma omap_decode_keeps (ls : list text) :
  omap decode (List.filter (prune_keeps cutoffTs) ls) =
  List.filter (fun d => cutoffTs <=? ts d) (omap decode ls).
Proof.
  induction ls as [|l ls IH]; [reflexivity|].
  cbn [List.filter omap list_omap].
  destruct (decode l) as [d|] eqn:Ed.
  - rewrite (decode_keeps _ _ Ed). cbn [List.filter].
    destruct (cutoffTs <=? ts d); cbn [omap list_omap]; rewrite ?Ed, IH; reflexivity.
  - destruct (prune_keeps cutoffTs l); cbn [omap list_omap]; rewrite ?Ed; exact IH.
Qed.

Lemma compacted_records (inp : text) :
  records (fold_left (prune_step cutoffTs) (file_lines inp) []) =
  List.filter (fun d => cutoffTs <=? ts d) (records inp).
Proof.
  unfold records. rewrite compacted_lines. apply omap_decode_keeps.
Qed.

End Compaction.

(** ** The claims about compaction *)

(** C1. After [pruneOlderThan cutoff] the records of the log are exactly the
    records it held before whose timestamp is at least [cutoff], in their
    original order: every remaining record is in the window and no
    in-window record is dropped. *)
Theorem C1_compaction_keeps_window (fs : gmap string text) (cutoff : Z) (log : text) :
  fs !! LOG_PATH = Some log ->
  exists log',
    pruneOlderThan cutoff fs !! LOG_PATH = Some log' /\
    records log' = List.filter (fun d => cutoff <=? ts d) (records log) /\
    Forall (fun d => cutoff <= ts d) (records log') /\
    (forall d, In d (records log) -> cutoff <= ts d -> In d (records log')).
Proof.
  intros Hlog. eexists. split; [exact (pruneOlderThan_log _ _ _ Hlog)|].
  rewrite compacted_records. split; [reflexivity|]. split.
  - apply List.Forall_forall. intros d Hd. apply List.filter_In in Hd. lia.
  - intros d Hd Hts. apply List.filter_In. split; [exact Hd|lia].
Qed.

Lemma C1_witness :
  exists log',
    pruneOlderThan 1100
      {[ LOG_PATH := txt "1000,20.00,50.00" ++ LF :: txt "1120,21.00,49.50" ++ [LF] ]}
      !! LOG_PATH = Some log' /\
    records log' =
      List.filter (fun d => 1100 <=? ts d)
        (records (txt "1000,20.00,50.00" ++ LF :: txt "1120,21.00,49.50" ++ [LF])) /\
    Forall (fun d => 1100 <= ts d) (records log') /\
    (forall d,
        In d (records (txt "1000,20.00,50.00" ++ LF :: txt "1120,21.00,49.50" ++ [LF])) ->
        1100 <= ts d -> In d (records log')).
Proof.
  apply (C1_compaction_keeps_window
           {[ LOG_PATH := txt "1000,20.00,50.00" ++ LF :: txt "1120,21.00,49.50" ++ [LF] ]}
           1100).
  reflexivity.
Defined.

(** C6, as stated, fails: a line cut off after its second field has no
    second comma, so no reader decodes it, yet compaction copies it because
    it only looks at the first field. *)
Lemma C6_counterexample :
  ~ (forall (fs : gmap string text) (cutoff : Z) (log' : text),
        pruneOlderThan cutoff fs !! LOG_PATH = Some log' ->
        Forall (fun raw => decode (trim raw) <> None) (file_lines log')).
Proof.
  intros H.
  specialize (H {[ LOG_PATH := txt "1800000000,21.5" ++ [LF] ]} 1700000000
                (txt "1800000000,21.5" ++ [CR; LF]) eq_refl).
  inversion H as [|? ? Hd _]. apply Hd. reflexivity.
Qed.

(** C6, amended. Compaction keeps exactly the lines that, trimmed, have at
    least 5 characters, a first comma after a non-empty first field, and a
    first field whose integer value is at least the cutoff; all other lines
    are dropped.  (A kept line may still lack its second comma.) *)
Theorem C6_compaction_line_filter (fs : gmap string text) (cutoff : Z) (log : text) :
  fs !! LOG_PATH = Some log ->
  exists log',
    pruneOlderThan cutoff fs !! LOG_PATH = Some log' /\
    map trim (file_lines log') =
      List.filter (prune_keeps cutoff) (map trim (file_lines log)) /\
    Forall (fun l => 5 <= len l /\ 0 < indexOf COMMA l /\
                     cutoff <= toInt (substring 0 (indexOf COMMA l) l))
           (map trim (file_lines log')).
Proof.
  intros Hlog. eexists. split; [exact (pruneOlderThan_log _ _ _ Hlog)|].
  rewrite compacted_lines. split; [reflexivity|].
  apply List.Forall_forall. intros l Hl. apply List.filter_In in Hl.
  destruct Hl as [_ Hk]. unfold prune_keeps in Hk.
  apply andb_prop in Hk. destruct Hk as [Hk H3].
  apply andb_prop in Hk. destruct Hk as [H1 H2].
  apply negb_true_iff in H1, H2. lia.
Qed.

Lemma C6_witness :
  exists log',
    pruneOlderThan 1700000000
      {[ LOG_PATH := txt "garbage" ++ LF :: txt "1800000000,21.5" ++ [LF] ]}
      !! LOG_PATH = Some log' /\
    map trim (file_lines log') =
      List.filter (prune_keeps 1700000000)
        (map trim (file_lines (txt "garbage" ++ LF :: txt "1800000000,21.5" ++ [LF]))) /\
    Forall (fun l => 5 <= len l /\ 0 < indexOf COMMA l /\
                     1700000000 <= toInt (substring 0 (indexOf COMMA l) l))
           (map trim (file_lines log')).
Proof.
  apply (C6_compaction_line_filter
           {[ LOG_PATH := txt "garbage" ++ LF :: txt "1800000000,21.5" ++ [LF] ]}
           1700000000).
  reflexivity.
Defined.

(** ** The history scan *)

Section History.

Variable sinceTs : Z.

Lemma docs_of_app (a b : list chunk) : docs_of (a ++ b) = docs_of a ++ docs_of b.
Proof.
  induction a as [|c a IH]; [reflexivity|].
  destruct c; simpl; rewrite IH; reflexivity.
Qed.

(** An iteration sends the decoded line when it decodes and is in the
    window, and nothing otherwise. *)
Lemma since_step_decode (first : bool) (sent : list chunk) (raw : text) :
  since_step sinceTs (first, sent) raw =
  match decode (trim raw) with
  | Some d =>
      if ts d <? sinceTs then (first, sent)
      else (false, sent ++ (if first then [] else [Lit ","]) ++ [Json d])
  | None => (first, sent)
  end.
Proof.
  unfold since_step, decode.
  destruct (len (trim raw) <? 5); [reflexivity|].
  destruct ((indexOf COMMA (trim raw) <=? 0)
            || (indexOfFrom COMMA (indexOf COMMA (trim raw) + 1) (trim raw)
                <=? indexOf COMMA (trim raw))); reflexivity.
Qed.

Lemma since_fold_docs (ls : list text) (first : bool) (sent : list chunk) :
  docs_of (snd (fold_left (since_step sinceTs) ls (first, sent))) =
  docs_of sent ++ List.filter (fun d => sinceTs <=? ts d) (omap decode (map trim ls)).
Proof.
  revert first sent. induction ls as [|raw ls IH]; intros first sent.
  - simpl. now rewrite app_nil_r.
  - cbn [fold_left map omap list_omap]. rewrite since_step_decode.
    destruct (decode (trim raw)) as [d|]; [|apply IH].
    cbn [List.filter]. rewrite (Z.leb_antisym (ts d) sinceTs).
    destruct (ts d <? sinceTs); cbn [negb]; [apply IH|].
    rewrite IH, !docs_of_app. destruct first; simpl; now rewrite <- app_assoc.
Qed.

(** A line that does not decode leaves the scan as it was. *)
Lemma since_step_skip (st : bool * list chunk) (raw : text) :
  decode (trim raw) = None -> since_step sinceTs st raw = st.
Proof.
  destruct st as [first sent]. intros H. now rewrite since_step_decode, H.
Qed.

Lemma sendHistorySince_docs (fs : gmap string text) :
  docs_of (chunks (sendHistorySince sinceTs fs)) =
  List.filter (fun d => sinceTs <=? ts d) (records (default [] (fs !! LOG_PATH))).
Proof.
  unfold sendHistorySince, LittleFS.open_read.
  destruct (fs !! LOG_PATH) as [log|]; [|reflexivity].
  pose proof (since_fold_docs (file_lines log) true [Lit "["]) as H.
  destruct (fold_left (since_step sinceTs) (file_lines log) (true, [Lit "["]))
    as [first sent].
  cbn [chunks snd] in *. rewrite docs_of_app, H. simpl. now rewrite app_nil_r.
Qed.

End History.

Lemma records_app (a b : text) :
  complete a = true -> records (a ++ b) = records a ++ records b.
Proof.
  intros H. unfold records. rewrite file_lines_app by exact H.
  rewrite map_app. apply omap_app.
Qed.

Lemma appendReading_log (t0 : Z) (t h : float) (fs : gmap string text) :
  appendReading t0 t h fs !! LOG_PATH =
  Some (default [] (fs !! LOG_PATH) ++ encode t0 t h).
Proof.
  unfold appendReading, LittleFS.append_file. apply lookup_insert_eq.
Qed.

(** C2. The history query returns the records of the log whose timestamp is
    at least the cutoff, in stored order, which is the order of appending:
    nothing older than the cutoff is returned, and a reading appended later
    comes after everything returned before. *)
Theorem C2_history_in_window (fs : gmap string text) (cutoff : Z) (log : text) :
  fs !! LOG_PATH = Some log ->
  let out := docs_of (chunks (sendHistorySince cutoff fs)) in
  out = List.filter (fun d => cutoff <=? ts d) (records log) /\
  Forall (fun d => cutoff <= ts d) out /\
  (forall d, ts d < cutoff -> ~ In d out) /\
  (complete log = true ->
   forall (t0 : Z) (t h : float),
     docs_of (chunks (sendHistorySince cutoff (appendReading t0 t h fs))) =
     out ++ List.filter (fun d => cutoff <=? ts d) (records (encode t0 t h))).
Proof.
  intros Hlog out. subst out. rewrite !sendHistorySince_docs, Hlog.
  unfold default; cbn [from_option id].
  split; [reflexivity|]. split; [|split].
  - apply List.Forall_forall. intros d Hd. apply List.filter_In in Hd. lia.
  - intros d Hlt Hd. apply List.filter_In in Hd. lia.
  - intros Hc t0 t h. rewrite sendHistorySince_docs, appendReading_log, Hlog.
    unfold default; cbn [from_option id]. rewrite records_app by exact Hc. apply List.filter_app.
Qed.

Lemma C2_witness :
  let fs : gmap string text :=
    {[ LOG_PATH := txt "1000,20.00,50.00" ++ LF :: txt "1060,20.50,51.00" ++ [LF] ]} in
  let log := txt "1000,20.00,50.00" ++ LF :: txt "1060,20.50,51.00" ++ [LF] in
  let out := docs_of (chunks (sendHistorySince 1060 fs)) in
  out = List.filter (fun d => 1060 <=? ts d) (records log) /\
  Forall (fun d => 1060 <= ts d) out /\
  (forall d, ts d < 1060 -> ~ In d out) /\
  (complete log = true ->
   forall (t0 : Z) (t h : float),
     docs_of (chunks (sendHistorySince 1060 (appendReading t0 t h fs))) =
     out ++ List.filter (fun d => 1060 <=? ts d) (records (encode t0 t h))).
Proof.
  intros fs log. apply (C2_history_in_window fs 1060 log). reflexivity.
Defined.

(** ** The latest query and damaged trailing lines *)

Lemma handleLatest_decode (fs : gmap string text) :
  handleLatest fs =
  match fs !! LOG_PATH with
  | None => mkresp 404 [ErrorJson "no_data"]
  | Some f =>
      let lastLine := fold_left latest_step (file_lines f) [] in
      if len lastLine <? 5 then mkresp 404 [ErrorJson "no_data"]
      else match decode lastLine with
           | Some d => mkresp 200 [Json d]
           | None => mkresp 500 [ErrorJson "bad_log_format"]
           end
  end.
Proof.
  unfold handleLatest, LittleFS.open_read, decode.
  destruct (fs !! LOG_PATH) as [f|]; [|reflexivity]. cbv zeta.
  destruct (len (fold_left latest_step (file_lines f) []) <? 5); [reflexivity|].
  match goal with |- context [if ?b then _ else _] => destruct b end; reflexivity.
Qed.

(** The lines of a log followed by one more line, terminated or not. *)
Lemma file_lines_trailing (log bad term : text) :
  complete log = true -> ~ In LF bad -> term = [] \/ term = [LF] ->
  file_lines (log ++ bad ++ term) =
  file_lines log ++ match term, bad with [], [] => [] | _, _ => [bad] end.
Proof.
  intros Hc Hbad Hterm. rewrite file_lines_app by exact Hc. f_equal.
  destruct Hterm as [-> | ->].
  - rewrite app_nil_r. destruct bad as [|c bad]; [reflexivity|].
    apply file_lines_last; [exact Hbad|discriminate].
  - rewrite file_lines_cons by exact Hbad. now destruct bad.
Qed.

(** C5, as stated, fails for the latest query: a line cut off in its second
    field is longer than 5 characters and has one comma only, so
    [handleLatest] answers 500 instead of the last valid record. *)
Lemma C5_counterexample :
  ~ (forall log bad : text,
        complete log = true -> ~ In LF bad -> decode (trim bad) = None ->
        handleLatest {[ LOG_PATH := log ++ bad ]} = handleLatest {[ LOG_PATH := log ]}).
Proof.
  intros H.
  specialize (H (txt "1700000000,20.00,50.00" ++ [LF]) (txt "1700000060,2") eq_refl).
  assert (Hno : ~ In LF (txt "1700000060,2")).
  { simpl. unfold LF. intros Hin.
    repeat (destruct Hin as [Hin|Hin]; [discriminate Hin|]). exact Hin. }
  specialize (H Hno eq_refl).
  vm_compute in H. discriminate H.
Qed.

(** C5, amended. A trailing line that does not decode, terminated or not,
    never changes the answer of the history query.  The latest query
    ignores it when it has at most 5 characters after trimming; when it is
    longer, the query answers 500 [bad_log_format]. *)
Theorem C5_trailing_corrupt_line
    (fs : gmap string text) (cutoff : Z) (log bad term : text) :
  complete log = true -> ~ In LF bad -> term = [] \/ term = [LF] ->
  decode (trim bad) = None ->
  sendHistorySince cutoff (<[LOG_PATH := log ++ bad ++ term]> fs) =
    sendHistorySince cutoff (<[LOG_PATH := log]> fs) /\
  (len (trim bad) <= 5 ->
   handleLatest (<[LOG_PATH := log ++ bad ++ term]> fs) =
     handleLatest (<[LOG_PATH := log]> fs)) /\
  (5 < len (trim bad) ->
   handleLatest (<[LOG_PATH := log ++ bad ++ term]> fs) =
     mkresp 500 [ErrorJson "bad_log_format"]).
Proof.
  intros Hc Hbad Hterm Hdec.
  pose proof (file_lines_trailing log bad term Hc Hbad Hterm) as Hl.
  assert (Hsince :
    forall st, fold_left (since_step cutoff) (file_lines (log ++ bad ++ term)) st =
               fold_left (since_step cutoff) (file_lines log) st).
  { intros st. rewrite Hl, fold_left_app.
    destruct term; [destruct bad|]; simpl; try reflexivity;
      now apply since_step_skip. }
  assert (Hlatest :
    fold_left latest_step (file_lines (log ++ bad ++ term)) [] =
    if 5 <? len (trim bad) then trim bad
    else fold_left latest_step (file_lines log) []).
  { rewrite Hl, fold_left_app.
    destruct term; [destruct bad|]; simpl; try reflexivity. }
  split; [|split].
  - unfold sendHistorySince, LittleFS.open_read.
    rewrite !lookup_insert_eq, Hsince. reflexivity.
  - intros Hle. rewrite !handleLatest_decode, !lookup_insert_eq. cbv zeta.
    rewrite Hlatest. destruct (Z.ltb_spec 5 (len (trim bad))); [lia|reflexivity].
  - intros Hgt. rewrite handleLatest_decode, lookup_insert_eq. cbv zeta.
    rewrite Hlatest. destruct (Z.ltb_spec 5 (len (trim bad))); [|lia].
    rewrite Hdec. destruct (Z.ltb_spec (len (trim bad)) 5); [lia|reflexivity].
Qed.

Lemma C5_witness :
  let fs : gmap string text := {[ TMP_PATH := [] ]} in
  let log := txt "1700000000,20.00,50.00" ++ [LF] in
  sendHistorySince 0 (<[LOG_PATH := log ++ txt "1700000060,2" ++ []]> fs) =
    sendHistorySince 0 (<[LOG_PATH := log]> fs) /\
  (len (trim (txt "1700000060,2")) <= 5 ->
   handleLatest (<[LOG_PATH := log ++ txt "1700000060,2" ++ []]> fs) =
     handleLatest (<[LOG_PATH := log]> fs)) /\
  (5 < len (trim (txt "1700000060,2")) ->
   handleLatest (<[LOG_PATH := log ++ txt "1700000060,2" ++ []]> fs) =
     mkresp 500 [ErrorJson "bad_log_format"]).
Proof.
  intros fs log.
  apply (C5_trailing_corrupt_line fs 0 log (txt "1700000060,2") []).
  - reflexivity.
  - simpl. unfold LF. intros Hin.
    repeat (destruct Hin as [Hin|Hin]; [discriminate Hin|]). exact Hin.
  - left. reflexivity.
  - reflexivity.
Defined.

(** ** Printing and reading back decimal numbers *)

Section Decimal.

Lemma code_digit (d : Z) : 0 <= d <= 9 -> code (digit d) = 48 + d.
Proof.
  intros H. unfold code, digit.
  rewrite nat_ascii_embedding by lia. lia.
Qed.

Lemma isdigit_digit (d : Z) : 0 <= d <= 9 -> isdigit (digit d) = true.
Proof.
  intros H. unfold isdigit. rewrite code_digit by exact H.
  apply andb_true_intro. split; apply Z.leb_le; lia.
Qed.

Lemma digits_val_digit (a d : Z) (rest : text) :
  0 <= d <= 9 -> digits_val a (digit d :: rest) = digits_val (a * 10 + d) rest.
Proof.
  intros H. cbn [digits_val]. rewrite isdigit_digit, code_digit by exact H.
  f_equal. lia.
Qed.

Lemma digits_val_app (ds rest : text) (a : Z) :
  Forall (fun c => isdigit c = true) ds ->
  digits_val a (ds ++ rest) = digits_val (digits_val a ds) rest.
Proof.
  intros H. revert a. induction H as [|c ds Hc _ IH]; intros a; simpl.
  - now destruct rest.
  - rewrite Hc. apply IH.
Qed.

Lemma digits_val_stop (a : Z) (rest : text) :
  match rest with [] => True | c :: _ => isdigit c = false end ->
  digits_val a rest = a.
Proof. destruct rest as [|c r]; [reflexivity|]. simpl. now intros ->. Qed.

Lemma scan_digits_app (ds rest : text) (a cnt : Z) :
  Forall (fun c => isdigit c = true) ds ->
  match rest with [] => True | c :: _ => isdigit c = false end ->
  Strtod.scan_digits a cnt (ds ++ rest) = (digits_val a ds, cnt + len ds, rest).
Proof.
  intros H Hrest. revert a cnt. induction H as [|c ds Hc _ IH]; intros a cnt.
  - simpl. unfold len. simpl. rewrite Z.add_0_r.
    destruct rest as [|c r]; [reflexivity|]. simpl. now rewrite Hrest.
  - simpl. rewrite Hc, IH. unfold len. simpl length.
    do 2 f_equal. lia.
Qed.

(** [dec_loop] puts the digits of [n] in front of [acc]. *)
Lemma dec_loop_spec (k : nat) (n : Z) (acc : text) :
  0 <= n < 2 ^ Z.of_nat (S k) ->
  exists ds,
    dec_loop (S k) n acc = ds ++ acc /\ ds <> [] /\
    Forall (fun c => isdigit c = true) ds /\
    forall a, digits_val a ds = a * 10 ^ len ds + n.
Proof.
  revert n acc. induction k as [|k IH]; intros n acc Hn.
  - assert (Hlt : n < 10) by (change (2 ^ Z.of_nat 1) with 2 in Hn; lia).
    exists [digit n]. cbn [dec_loop].
    destruct (Z.ltb_spec n 10); [|lia].
    rewrite Z.mod_small by lia. repeat split; [discriminate| |].
    + constructor; [apply isdigit_digit; lia|constructor].
    + intros a. rewrite digits_val_digit by lia. simpl. unfold len. simpl. lia.
  - cbn [dec_loop]. destruct (Z.ltb_spec n 10) as [Hlt|Hge].
    + exists [digit (n mod 10)]. rewrite Z.mod_small by lia.
      repeat split; [discriminate| |].
      * constructor; [apply isdigit_digit; lia|constructor].
      * intros a. rewrite digits_val_digit by lia. simpl. unfold len. simpl. lia.
    + assert (Hq : 0 <= n / 10 < 2 ^ Z.of_nat (S k)).
      { split; [apply Z.div_pos; lia|].
        apply Z.div_lt_upper_bound; [lia|].
        replace (Z.of_nat (S (S k))) with (Z.of_nat (S k) + 1) in Hn by lia.
        rewrite Z.pow_add_r in Hn by lia. lia. }
      destruct (IH (n / 10) (digit (n mod 10) :: acc) Hq) as (ds & E & Hne & Hd & Hv).
      exists (ds ++ [digit (n mod 10)]).
      pose proof (Z.mod_pos_bound n 10 ltac:(lia)) as Hm.
      repeat split.
      * change (dec_loop (S k) (n / 10) (digit (n mod 10) :: acc) =
                (ds ++ [digit (n mod 10)]) ++ acc).
        rewrite E, <- app_assoc. reflexivity.
      * destruct ds; discriminate.
      * apply Forall_app. split; [exact Hd|].
        constructor; [apply isdigit_digit; lia|constructor].
      * intros a. rewrite digits_val_app by exact Hd.
        rewrite digits_val_digit by lia. simpl. rewrite Hv.
        unfold len. rewrite length_app. simpl length.
        replace (Z.of_nat (length ds + 1)) with (Z.of_nat (length ds) + 1) by lia.
        rewrite Z.pow_add_r by lia.
        pose proof (Z.div_mod n 10 ltac:(lia)). lia.
Qed.

Lemma dec_spec (n : Z) :
  0 <= n ->
  dec n <> [] /\ Forall (fun c => isdigit c = true) (dec n) /\
  forall a, digits_val a (dec n) = a * 10 ^ len (dec n) + n.
Proof.
  intros Hn. unfold dec.
  assert (Hb : 0 <= n < 2 ^ Z.of_nat (S (Z.to_nat (Z.log2 n)))).
  { split; [exact Hn|].
    replace (Z.of_nat (S (Z.to_nat (Z.log2 n)))) with (Z.succ (Z.log2 n))
      by (pose proof (Z.log2_nonneg n); lia).
    destruct (Z.eq_dec n 0) as [->|Hnz]; [reflexivity|].
    apply Z.log2_spec. lia. }
  destruct (dec_loop_spec _ n [] Hb) as (ds & E & Hne & Hd & Hv).
  rewrite E, app_nil_r. auto.
Qed.

End Decimal.

(** ** Splitting a line into its fields *)

Section Fields.

Lemma eqb_code (c c' : ascii) : code c <> code c' -> Ascii.eqb c c' = false.
Proof. intros H. apply Ascii.eqb_neq. intros ->. now apply H. Qed.

Lemma fieldchar_spec (c : ascii) :
  fieldchar c = true ->
  isspace c = false /\ Ascii.eqb c COMMA = false /\ Ascii.eqb c NUL = false /\ c <> LF.
Proof.
  unfold fieldchar. intros H.
  apply andb_prop in H. destruct H as [H H3].
  apply andb_prop in H. destruct H as [H1 H2].
  apply negb_true_iff in H1, H2, H3. repeat split; try assumption.
  intros ->. discriminate H1.
Qed.

Lemma fieldchar_digit (c : ascii) : isdigit c = true -> fieldchar c = true.
Proof.
  unfold isdigit, fieldchar, isspace. intros H.
  apply andb_prop in H. destruct H as [H1 H2].
  apply Z.leb_le in H1, H2.
  rewrite (eqb_code c COMMA), (eqb_code c NUL)
    by (change (code COMMA) with 44; change (code NUL) with 0; lia).
  destruct (Z.eqb_spec (code c) 32); [lia|].
  destruct (Z.leb_spec (code c) 13); [lia|]. now rewrite andb_false_r.
Qed.

Lemma fieldchar_digits (ds : text) :
  Forall (fun c => isdigit c = true) ds -> Forall (fun c => fieldchar c = true) ds.
Proof. apply List.Forall_impl. exact fieldchar_digit. Qed.

Lemma fieldchar_no_LF (s : text) :
  Forall (fun c => fieldchar c = true) s -> ~ In LF s.
Proof.
  intros H Hin. rewrite List.Forall_forall in H.
  apply H in Hin. discriminate Hin.
Qed.

Lemma strchr_field (A R : text) :
  Forall (fun c => fieldchar c = true) A ->
  strchr COMMA (A ++ COMMA :: R) = Some (length A).
Proof.
  induction 1 as [|c A Hc _ IH]; [reflexivity|].
  destruct (fieldchar_spec c Hc) as (_ & H1 & H2 & _).
  simpl. rewrite H1, H2, IH. reflexivity.
Qed.

Lemma skipn_past (A X : text) (c : ascii) : skipn (S (length A)) (A ++ c :: X) = X.
Proof. induction A as [|a A IH]; [reflexivity|exact IH]. Qed.

Lemma len_app (a b : text) : len (a ++ b) = len a + len b.
Proof. unfold len. rewrite length_app. lia. Qed.

Lemma len_cons (c : ascii) (a : text) : len (c :: a) = 1 + len a.
Proof. unfold len. simpl length. lia. Qed.

Lemma len_nonneg (a : text) : 0 <= len a.
Proof. unfold len. lia. Qed.

Lemma indexOf_field (A R : text) :
  Forall (fun c => fieldchar c = true) A ->
  indexOf COMMA (A ++ COMMA :: R) = len A.
Proof.
  intros H. unfold indexOf, indexOfFrom.
  pose proof (len_nonneg A). pose proof (len_nonneg R).
  destruct (Z.leb_spec (len (A ++ COMMA :: R)) 0) as [Hl|_].
  - rewrite len_app, len_cons in Hl. lia.
  - change (Z.to_nat 0) with O. rewrite skipn_O, strchr_field by exact H.
    unfold len. lia.
Qed.

Lemma indexOfFrom_field (A B C : text) :
  Forall (fun c => fieldchar c = true) B ->
  indexOfFrom COMMA (len A + 1) (A ++ COMMA :: B ++ COMMA :: C) = len A + 1 + len B.
Proof.
  intros H. unfold indexOfFrom.
  pose proof (len_nonneg A). pose proof (len_nonneg B). pose proof (len_nonneg C).
  destruct (Z.leb_spec (len (A ++ COMMA :: B ++ COMMA :: C)) (len A + 1)) as [Hl|_].
  - rewrite len_app, len_cons, len_app, len_cons in Hl. lia.
  - replace (Z.to_nat (len A + 1)) with (S (length A)) by (unfold len; lia).
    rewrite skipn_past, strchr_field by exact H. unfold len. lia.
Qed.

Lemma substring_first (A R : text) : substring 0 (len A) (A ++ R) = A.
Proof.
  unfold substring. pose proof (len_nonneg A). pose proof (len_nonneg R).
  rewrite Z.min_l, Z.max_r by lia.
  destruct (Z.leb_spec (len (A ++ R)) 0) as [Hl|_].
  - rewrite len_app in Hl. destruct A; [reflexivity|].
    unfold len in *. simpl length in *. lia.
  - rewrite Z.min_l by (rewrite len_app; lia).
    change (Z.to_nat 0) with O. rewrite skipn_O.
    replace (Z.to_nat (len A - 0)) with (length A) by (unfold len; lia).
    rewrite firstn_app, firstn_all, Nat.sub_diag. simpl. apply app_nil_r.
Qed.

Lemma substring_mid (A B R : text) (c : ascii) :
  substring (len A + 1) (len A + 1 + len B) (A ++ c :: B ++ R) = B.
Proof.
  unfold substring.
  pose proof (len_nonneg A). pose proof (len_nonneg B). pose proof (len_nonneg R).
  rewrite Z.min_l, Z.max_r by lia.
  assert (Hs : len (A ++ c :: B ++ R) = len A + 1 + len B + len R)
    by (rewrite len_app, len_cons, len_app; lia).
  destruct (Z.leb_spec (len (A ++ c :: B ++ R)) (len A + 1)) as [Hl|_].
  - destruct B; [reflexivity|]. unfold len in *. simpl length in *. lia.
  - rewrite Z.min_l by lia.
    replace (Z.to_nat (len A + 1)) with (S (length A)) by (unfold len; lia).
    replace (Z.to_nat (len A + 1 + len B - (len A + 1))) with (length B)
      by (unfold len; lia).
    rewrite skipn_past, firstn_app, firstn_all, Nat.sub_diag. simpl. apply app_nil_r.
Qed.

Lemma substringFrom_last (A B C : text) (c c' : ascii) :
  substringFrom (len A + 1 + len B + 1) (A ++ c :: B ++ c' :: C) = C.
Proof.
  unfold substringFrom, substring.
  pose proof (len_nonneg A). pose proof (len_nonneg B). pose proof (len_nonneg C).
  assert (Hs : len (A ++ c :: B ++ c' :: C) = len A + 1 + len B + 1 + len C)
    by (rewrite len_app, len_cons, len_app, len_cons; lia).
  rewrite Z.min_l, Z.max_r by lia.
  destruct (Z.leb_spec (len (A ++ c :: B ++ c' :: C)) (len A + 1 + len B + 1)) as [Hl|_].
  - destruct C; [reflexivity|]. unfold len in *. simpl length in *. lia.
  - rewrite Z.min_r by lia.
    replace (A ++ c :: B ++ c' :: C) with ((A ++ c :: B) ++ c' :: C)
      by (now rewrite <- app_assoc).
    replace (Z.to_nat (len A + 1 + len B + 1)) with (S (length (A ++ c :: B)))
      by (rewrite length_app; simpl length; unfold len; lia).
    rewrite skipn_past.
    replace (Z.to_nat (len ((A ++ c :: B) ++ c' :: C) - (len A + 1 + len B + 1)))
      with (length C)
      by (rewrite <- app_assoc; simpl app; rewrite Hs; unfold len; lia).
    apply firstn_all.
Qed.

(** A line of three fields decodes to the values of its fields. *)
Lemma decode_fields (A B C : text) :
  Forall (fun c => fieldchar c = true) A ->
  Forall (fun c => fieldchar c = true) B ->
  A <> [] -> 5 <= len (A ++ COMMA :: B ++ COMMA :: C) ->
  decode (A ++ COMMA :: B ++ COMMA :: C) =
  Some (mkdoc (toInt A) (toFloat B) (toFloat C)).
Proof.
  intros HA HB Hne Hlen. unfold decode.
  destruct (Z.ltb_spec (len (A ++ COMMA :: B ++ COMMA :: C)) 5); [lia|].
  rewrite indexOf_field by exact HA.
  rewrite indexOfFrom_field by exact HB.
  assert (0 < len A) by (destruct A; [congruence|rewrite len_cons; pose proof (len_nonneg A); lia]).
  pose proof (len_nonneg B).
  destruct (Z.leb_spec (len A) 0); [lia|].
  destruct (Z.leb_spec (len A + 1 + len B) (len A)); [lia|]. cbn [orb].
  rewrite substring_first, substring_mid, substringFrom_last. reflexivity.
Qed.

Lemma ltrim_fixed (s : text) :
  match s with c :: _ => isspace c = false | [] => True end -> ltrim s = s.
Proof. destruct s as [|c s]; [reflexivity|]. simpl. now intros ->. Qed.

(** Text made of field characters and commas, with a field character at
    each end, is left alone by [trim]. *)
Lemma tight_fields (A M C : text) :
  Forall (fun c => fieldchar c = true) A -> A <> [] ->
  Forall (fun c => fieldchar c = true) C -> C <> [] ->
  tight (A ++ M ++ C).
Proof.
  intros HA HAne HC HCne. split.
  - apply ltrim_fixed. destruct A as [|a A]; [congruence|].
    inversion HA; subst. simpl. now apply fieldchar_spec.
  - apply ltrim_fixed. rewrite !rev_app_distr.
    apply Forall_rev in HC.
    destruct (rev C) as [|c rC] eqn:E.
    + apply (f_equal (@rev ascii)) in E. rewrite rev_involutive in E. simpl in E. congruence.
    + inversion HC; subst. simpl. now apply fieldchar_spec.
Qed.


End Fields.

(** ** What the writer prints *)

Section Encoding.

Lemma wrap32_small (z : Z) : LONG_MIN <= z <= LONG_MAX -> wrap32 z = z.
Proof.
  unfold LONG_MIN, LONG_MAX, wrap32. intros H. rewrite Z.mod_small; lia.
Qed.

Lemma dec_head (n : Z) :
  0 <= n -> exists c r, dec n = c :: r /\ isdigit c = true.
Proof.
  intros Hn. destruct (dec_spec n Hn) as (Hne & Hd & _).
  destruct (dec n) as [|c r]; [congruence|].
  inversion Hd; subst. eauto.
Qed.

Lemma digit_not_sign (c : ascii) :
  isdigit c = true -> Ascii.eqb c "-" = false /\ Ascii.eqb c "+" = false.
Proof.
  unfold isdigit. intros H. apply andb_prop in H. destruct H as [H1 H2].
  apply Z.leb_le in H1, H2.
  split; apply eqb_code;
    [change (code "-") with 45|change (code "+") with 43]; lia.
Qed.

Lemma fmt_ld_field (z : Z) :
  Forall (fun c => fieldchar c = true) (fmt_ld z) /\ fmt_ld z <> [].
Proof.
  unfold fmt_ld. destruct (Z.ltb_spec z 0).
  - split; [|discriminate]. constructor; [reflexivity|].
    apply fieldchar_digits, dec_spec. lia.
  - split; [apply fieldchar_digits|]; apply dec_spec; lia.
Qed.

(** [%ld] then [toInt] is the identity on [long]. *)
Lemma toInt_fmt_ld (z : Z) : LONG_MIN <= z <= LONG_MAX -> toInt (fmt_ld z) = z.
Proof.
  intros Hz. unfold fmt_ld, toInt. destruct (Z.ltb_spec z 0) as [Hneg|Hpos].
  - cbn [ltrim]. change (isspace "-") with false. cbv iota.
    change (Ascii.eqb "-" "-") with true. cbv iota.
    destruct (dec_spec (- z) ltac:(lia)) as (_ & _ & Hv). rewrite Hv.
    unfold clamp_long. lia.
  - destruct (dec_head z Hpos) as (c & r & E & Hc).
    destruct (dec_spec z Hpos) as (_ & _ & Hv).
    rewrite E in *. cbn [ltrim].
    destruct (fieldchar_spec c (fieldchar_digit c Hc)) as (Hsp & _).
    rewrite Hsp. destruct (digit_not_sign c Hc) as [-> ->].
    rewrite Hv. unfold clamp_long. lia.
Qed.

Lemma cents_nonneg (m : positive) (e : Z) : 0 <= cents m e.
Proof.
  unfold cents. destruct (Z.leb_spec 0 e).
  - pose proof (Z.pow_nonneg 2 e ltac:(lia)). nia.
  - assert (0 < 2 ^ (- e)) by (apply Z.pow_pos_nonneg; lia).
    assert (0 <= Z.pos m * 100 / 2 ^ (- e)) by (apply Z.div_pos; lia).
    cbv zeta. repeat match goal with |- context [if ?b then _ else _] => destruct b end; lia.
Qed.

Lemma fixed2_shape (n : Z) :
  0 <= n ->
  exists ip d1 d2,
    fixed2 n = ip ++ "."%char :: d1 :: d2 :: [] /\ ip <> [] /\
    Forall (fun c => isdigit c = true) ip /\
    isdigit d1 = true /\ isdigit d2 = true /\
    digits_val (digits_val 0 ip) [d1; d2] = n.
Proof.
  intros Hn. unfold fixed2.
  assert (Hq : 0 <= n / 100) by (apply Z.div_pos; lia).
  destruct (dec_spec (n / 100) Hq) as (Hne & Hd & Hv).
  pose proof (Z.mod_pos_bound (n / 10) 10 ltac:(lia)).
  pose proof (Z.mod_pos_bound n 10 ltac:(lia)).
  exists (dec (n / 100)), (digit (n / 10 mod 10)), (digit (n mod 10)).
  repeat split; try assumption; try (apply isdigit_digit; lia).
  rewrite Hv, !digits_val_digit by lia. cbn [digits_val].
  replace (n / 100) with (n / 10 / 10) by (rewrite Z.div_div by lia; reflexivity).
  pose proof (Z.div_mod n 10 ltac:(lia)).
  pose proof (Z.div_mod (n / 10) 10 ltac:(lia)). lia.
Qed.

Lemma fixed2_field (n : Z) :
  0 <= n ->
  Forall (fun c => fieldchar c = true) (fixed2 n) /\ 4 <= len (fixed2 n) /\
  exists c r, fixed2 n = c :: r /\ isdigit c = true.
Proof.
  intros Hn. destruct (fixed2_shape n Hn) as (ip & d1 & d2 & -> & Hne & Hip & H1 & H2 & _).
  split; [|split].
  - apply Forall_app. split; [now apply fieldchar_digits|].
    repeat constructor; now apply fieldchar_digit.
  - rewrite len_app. destruct ip; [congruence|].
    unfold len. simpl length. lia.
  - destruct ip as [|c r]; [congruence|]. inversion Hip; subst.
    exists c, (r ++ ["."%char; d1; d2]). auto.
Qed.

Lemma sign_text_field (s : bool) : Forall (fun c => fieldchar c = true) (sign_text s).
Proof. destruct s; repeat constructor. Qed.

Lemma fmt_2f_field (f : float) :
  Forall (fun c => fieldchar c = true) (fmt_2f f) /\ 3 <= len (fmt_2f f).
Proof.
  destruct f as [s|s| |s m e]; unfold fmt_2f.
  - destruct (fixed2_field 0 ltac:(lia)) as (H1 & H2 & _). split.
    + apply Forall_app. split; [apply sign_text_field|exact H1].
    + rewrite len_app. pose proof (len_nonneg (sign_text s)). lia.
  - destruct s; split; try (repeat constructor); vm_compute; discriminate.
  - split; [repeat constructor|vm_compute; discriminate].
  - destruct (fixed2_field (cents m e) (cents_nonneg m e)) as (H1 & H2 & _). split.
    + apply Forall_app. split; [apply sign_text_field|exact H1].
    + rewrite len_app. pose proof (len_nonneg (sign_text s)). lia.
Qed.


(** [strtod] reads a printed [%.2f] value back as that many hundredths. *)
Lemma strtod_fixed2 (s : bool) (n : Z) :
  0 <= n ->
  Strtod.strtod (sign_text s ++ fixed2 n) = round_decimal prec64 emax64 s n (-2).
Proof.
  intros Hn.
  destruct (fixed2_shape n Hn) as (ip & d1 & d2 & E & Hne & Hip & H1 & H2 & Hv).
  destruct ip as [|c ip]; [congruence|].
  assert (Hc : isdigit c = true) by (inversion Hip; assumption).
  destruct (fieldchar_spec c (fieldchar_digit c Hc)) as (Hsp & _).
  destruct (digit_not_sign c Hc) as [Hm Hp].
  assert (Hsplit : Strtod.split_sign (ltrim (sign_text s ++ fixed2 n)) = (s, fixed2 n)).
  { rewrite E. destruct s; cbn [sign_text app ltrim].
    - reflexivity.
    - rewrite Hsp. unfold Strtod.split_sign. now rewrite Hm, Hp. }
  unfold Strtod.strtod. rewrite Hsplit. rewrite E.
  rewrite (scan_digits_app (c :: ip) ("."%char :: [d1; d2]) 0 0 Hip eq_refl).
  change (Ascii.eqb "." ".") with true. cbv iota.
  assert (Hfrac := scan_digits_app [d1; d2] [] (digits_val 0 (c :: ip)) 0).
  change ([d1; d2] ++ []) with [d1; d2] in Hfrac.
  rewrite Hfrac by (repeat constructor; assumption).
  rewrite Hv.
  assert (Hk : 0 < len (c :: ip)) by (unfold len; simpl length; lia).
  change (len [d1; d2]) with 2.
  destruct (Z.eqb_spec (0 + len (c :: ip) + (0 + 2)) 0); [lia|].
  reflexivity.
Qed.

(** Printing with [%.2f] and reading back with [toFloat] rounds to two
    decimals. *)
Lemma toFloat_fmt_2f (f : float) : toFloat (fmt_2f f) = round2 f.
Proof.
  destruct f as [s|s| |s m e].
  - destruct s; vm_compute; reflexivity.
  - destruct s; vm_compute; reflexivity.
  - vm_compute. reflexivity.
  - unfold toFloat, fmt_2f, round2, float_of_cents.
    now rewrite strtod_fixed2 by apply cents_nonneg.
Qed.

Lemma in_range_finite (lo hi : Z) (f : float) :
  in_range lo hi f -> isnan f = false /\
  (finite (float_of_int lo) = true -> finite (float_of_int hi) = true -> finite f = true).
Proof.
  unfold in_range, fle, SFleb. intros [H1 H2]. split.
  - destruct f; try reflexivity.
    destruct (float_of_int lo); discriminate.
  - intros Hlo Hhi.
    destruct f as [s|s| |s m e]; try reflexivity.
    + destruct s.
      * destruct (float_of_int lo); try discriminate.
      * destruct (float_of_int hi); try discriminate.
    + destruct (float_of_int lo); discriminate.
Qed.

Lemma fmt_2f_finite_len (f : float) : finite f = true -> 4 <= len (fmt_2f f).
Proof.
  destruct f as [s|s| |s m e]; try discriminate; intros _; unfold fmt_2f;
    rewrite len_app; pose proof (len_nonneg (sign_text s)).
  - destruct (fixed2_field 0 ltac:(lia)) as (_ & H2 & _). lia.
  - destruct (fixed2_field (cents m e) (cents_nonneg m e)) as (_ & H2 & _). lia.
Qed.

Lemma encode_body_LF (t0 : Z) (t h : float) :
  encode t0 t h = encode_body t0 t h ++ [LF].
Proof.
  unfold encode, encode_body. rewrite <- app_assoc. simpl.
  rewrite <- app_assoc. reflexivity.
Qed.

Lemma fmt_2f_nonempty (f : float) : fmt_2f f <> [].
Proof.
  destruct (fmt_2f_field f) as [_ H]. intros E. rewrite E in H.
  unfold len in H. simpl in H. lia.
Qed.

Lemma encode_body_field (t0 : Z) (t h : float) :
  Forall (fun c => fieldchar c = true \/ c = COMMA) (encode_body t0 t h).
Proof.
  unfold encode_body.
  destruct (fmt_ld_field (wrap32 t0)) as [H0 _].
  destruct (fmt_2f_field t) as [H1 _]. destruct (fmt_2f_field h) as [H2 _].
  apply Forall_app. split; [eapply List.Forall_impl; [|exact H0]; auto|].
  constructor; [now right|].
  apply Forall_app. split; [eapply List.Forall_impl; [|exact H1]; auto|].
  constructor; [now right|].
  eapply List.Forall_impl; [|exact H2]; auto.
Qed.

Lemma encode_body_no_LF (t0 : Z) (t h : float) : ~ In LF (encode_body t0 t h).
Proof.
  intros Hin. pose proof (encode_body_field t0 t h) as H.
  rewrite List.Forall_forall in H. destruct (H _ Hin) as [Hf|Hc]; discriminate.
Qed.

Lemma encode_body_tight (t0 : Z) (t h : float) : tight (encode_body t0 t h).
Proof.
  unfold encode_body.
  replace (fmt_ld (wrap32 t0) ++ COMMA :: fmt_2f t ++ COMMA :: fmt_2f h)
    with (fmt_ld (wrap32 t0) ++ (COMMA :: fmt_2f t ++ [COMMA]) ++ fmt_2f h)
    by (simpl; now rewrite <- app_assoc).
  apply tight_fields.
  - apply fmt_ld_field.
  - apply fmt_ld_field.
  - apply fmt_2f_field.
  - apply fmt_2f_nonempty.
Qed.

Lemma encode_body_len (t0 : Z) (t h : float) :
  5 <= len (fmt_ld (wrap32 t0)) + len (fmt_2f t) + len (fmt_2f h) /\
  len (encode_body t0 t h) =
    len (fmt_ld (wrap32 t0)) + len (fmt_2f t) + len (fmt_2f h) + 2.
Proof.
  unfold encode_body. rewrite len_app, len_cons, len_app, len_cons.
  destruct (fmt_2f_field t) as [_ H1]. destruct (fmt_2f_field h) as [_ H2].
  pose proof (len_nonneg (fmt_ld (wrap32 t0))). lia.
Qed.

(** Every line the writer prints decodes, to the timestamp as printed and
    the two values rounded to two decimals. *)
Lemma decode_encode_body (t0 : Z) (t h : float) :
  decode (encode_body t0 t h) =
  Some (mkdoc (toInt (fmt_ld (wrap32 t0))) (round2 t) (round2 h)).
Proof.
  unfold encode_body. rewrite decode_fields.
  - now rewrite !toFloat_fmt_2f.
  - apply fmt_ld_field.
  - apply fmt_2f_field.
  - apply fmt_ld_field.
  - pose proof (encode_body_len t0 t h) as [H1 H2].
    unfold encode_body in H2. lia.
Qed.

End Encoding.

(** ** The record codec *)

Section Codec.

Lemma cents_near (m : positive) (e : Z) : half_cent_near (S754_finite false m e) (cents m e).
Proof.
  unfold half_cent_near, cents. destruct (Z.leb_spec 0 e) as [He|He]; [reflexivity|].
  assert (Hd : 0 < 2 ^ (- e)) by (apply Z.pow_pos_nonneg; lia).
  pose proof (Z.div_mod (Z.pos m * 100) (2 ^ (- e)) ltac:(lia)) as Hdm.
  pose proof (Z.mod_pos_bound (Z.pos m * 100) (2 ^ (- e)) Hd) as Hr.
  set (d := 2 ^ (- e)) in *. set (q := Z.pos m * 100 / d) in *.
  set (r := (Z.pos m * 100) mod d) in *. cbv zeta.
  destruct (Z.ltb_spec (2 * r) d); [|destruct (Z.ltb_spec d (2 * r));
    [|destruct (Z.even q)]]; nia.
Qed.

(** The value read back is the float nearest to a number of hundredths
    that lies within half a hundredth of the value written. *)
Lemma round2_near (f : float) :
  finite f = true ->
  exists n, round2 f = float_of_cents (sign_of f) n /\ half_cent_near f n.
Proof.
  destruct f as [s|s| |s m e]; try discriminate; intros _.
  - exists 0. split; [destruct s; reflexivity|reflexivity].
  - exists (cents m e). split; [reflexivity|exact (cents_near m e)].
Qed.

Lemma valid_reading_finite (r : reading) :
  valid_reading r -> finite (r_temp r) = true /\ finite (r_hum r) = true.
Proof.
  intros (_ & Ht & Hh). split.
  - now apply (in_range_finite _ _ _ Ht).
  - now apply (in_range_finite _ _ _ Hh).
Qed.

Lemma valid_reading_decode (r : reading) :
  valid_reading r ->
  decode (encode_body (r_ts r) (r_temp r) (r_hum r)) = Some (stored r).
Proof.
  intros (Hts & _). rewrite decode_encode_body.
  assert (Hw : wrap32 (r_ts r) = r_ts r)
    by (apply wrap32_small; unfold LONG_MIN, LONG_MAX in *; lia).
  rewrite Hw, toInt_fmt_ld by (unfold LONG_MIN, LONG_MAX in *; lia).
  reflexivity.
Qed.

Lemma readStringUntil_encode (t0 : Z) (t h : float) :
  readStringUntil LF (encode t0 t h) = (encode_body t0 t h, []).
Proof.
  rewrite encode_body_LF. apply readStringUntil_line, encode_body_no_LF.
Qed.

Lemma count_commas_field (A : text) :
  Forall (fun c => fieldchar c = true) A -> count_occ ascii_dec A COMMA = 0%nat.
Proof.
  induction 1 as [|c A Hc _ IH]; [reflexivity|].
  destruct (fieldchar_spec c Hc) as (_ & H & _). apply Ascii.eqb_neq in H.
  rewrite count_occ_cons_neq by exact H. exact IH.
Qed.

Lemma encode_body_commas (t0 : Z) (t h : float) :
  count_occ ascii_dec (encode_body t0 t h) COMMA = 2%nat.
Proof.
  unfold encode_body.
  rewrite count_occ_app, count_occ_cons_eq by reflexivity.
  rewrite count_occ_app, count_occ_cons_eq by reflexivity.
  rewrite !count_commas_field; [reflexivity| | |].
  - apply fmt_2f_field.
  - apply fmt_2f_field.
  - apply fmt_ld_field.
Qed.

Lemma valid_reading_len (r : reading) :
  valid_reading r -> 11 <= len (encode_body (r_ts r) (r_temp r) (r_hum r)).
Proof.
  intros Hv. destruct (valid_reading_finite r Hv) as [Ht Hh].
  apply fmt_2f_finite_len in Ht, Hh.
  destruct (encode_body_len (r_ts r) (r_temp r) (r_hum r)) as [_ ->].
  destruct (fmt_ld_field (wrap32 (r_ts r))) as [_ Hne].
  destruct (fmt_ld (wrap32 (r_ts r))); [congruence|].
  unfold len in *. simpl length. lia.
Qed.

Lemma float_eqb_eq (x y : float) : float_eqb x y = true -> x = y.
Proof.
  destruct x as [a|a| |a m e], y as [b|b| |b m' e']; simpl; try discriminate;
    try reflexivity.
  - intros H. apply Bool.eqb_prop in H. now subst.
  - intros H. apply Bool.eqb_prop in H. now subst.
  - intros H. apply andb_prop in H. destruct H as [H H3].
    apply andb_prop in H. destruct H as [H1 H2].
    apply Bool.eqb_prop in H1. apply Pos.eqb_eq in H2. apply Z.eqb_eq in H3.
    now subst.
Qed.

Lemma all_from_spec (k : nat) (n : Z) (p : Z -> bool) :
  all_from k n p = true -> forall i, n <= i < n + Z.of_nat k -> p i = true.
Proof.
  revert n. induction k as [|k IH]; intros n H i Hi; [lia|].
  cbn [all_from] in H. apply andb_prop in H. destruct H as [Hn Hk].
  destruct (Z.eq_dec i n) as [->|Hne]; [exact Hn|].
  apply (IH (n + 1) Hk). lia.
Qed.

(** Checked by evaluation on every value: up to 125.00, either sign, what
    is printed for the float nearest to a two-decimal value reads back as
    that float. *)
Lemma reprints_range :
  all_from (Z.to_nat 12501) 0 (reprints false) = true /\
  all_from (Z.to_nat 12501) 0 (reprints true) = true.
Proof. split; vm_compute; reflexivity. Qed.

Lemma round2_two_decimals (s : bool) (n : Z) :
  0 <= n <= 12500 -> round2 (float_of_cents s n) = float_of_cents s n.
Proof.
  intros Hn. apply float_eqb_eq. change (reprints s n = true).
  destruct reprints_range as [Hf Ht].
  destruct s; [apply (all_from_spec _ _ _ Ht)|apply (all_from_spec _ _ _ Hf)]; lia.
Qed.

End Codec.

(** C4. For a valid Reading, the line [appendReading] prints, read back by
    [readStringUntil], [trim] and the field split of the queries, gives the
    same timestamp and each value rounded to two decimals: the float
    nearest to a number of hundredths within half a hundredth of the value
    written.  A Reading whose values are themselves such floats (two-decimal
    values up to 125.00) comes back exactly. *)
Theorem C4_codec_round_trip (r : reading) :
  valid_reading r ->
  let line := encode (r_ts r) (r_temp r) (r_hum r) in
  snd (readStringUntil LF line) = [] /\
  decode (trim (fst (readStringUntil LF line))) = Some (stored r) /\
  ts (stored r) = r_ts r /\
  (exists n, tempC (stored r) = float_of_cents (sign_of (r_temp r)) n /\
             half_cent_near (r_temp r) n) /\
  (exists n, humidity (stored r) = float_of_cents (sign_of (r_hum r)) n /\
             half_cent_near (r_hum r) n) /\
  (forall st nt sh nh,
      0 <= nt <= 12500 -> 0 <= nh <= 12500 ->
      r_temp r = float_of_cents st nt -> r_hum r = float_of_cents sh nh ->
      stored r = mkdoc (r_ts r) (r_temp r) (r_hum r)).
Proof.
  intros Hv line. subst line. rewrite readStringUntil_encode. cbn [fst snd].
  rewrite trim_tight by apply encode_body_tight.
  destruct (valid_reading_finite r Hv) as [Ht Hh].
  split; [reflexivity|]. split; [now apply valid_reading_decode|].
  split; [reflexivity|]. split; [now apply round2_near|].
  split; [now apply round2_near|].
  intros st nt sh nh Hnt Hnh Et Eh. unfold stored.
  rewrite Et, Eh, !round2_two_decimals by assumption. reflexivity.
Qed.

Lemma C4_witness :
  let r := mkreading 1700000123 (toFloat (txt "21.337")) (toFloat (txt "49.5")) in
  let line := encode (r_ts r) (r_temp r) (r_hum r) in
  snd (readStringUntil LF line) = [] /\
  decode (trim (fst (readStringUntil LF line))) = Some (stored r) /\
  ts (stored r) = r_ts r /\
  (exists n, tempC (stored r) = float_of_cents (sign_of (r_temp r)) n /\
             half_cent_near (r_temp r) n) /\
  (exists n, humidity (stored r) = float_of_cents (sign_of (r_hum r)) n /\
             half_cent_near (r_hum r) n) /\
  (forall st nt sh nh,
      0 <= nt <= 12500 -> 0 <= nh <= 12500 ->
      r_temp r = float_of_cents st nt -> r_hum r = float_of_cents sh nh ->
      stored r = mkdoc (r_ts r) (r_temp r) (r_hum r)).
Proof.
  intros r.
  apply (C4_codec_round_trip r).
  unfold valid_reading, in_range, LONG_MAX. simpl r_ts.
  repeat split; try lia; vm_compute; reflexivity.
Defined.

(** C10. The line written for a valid Reading ends with a line feed, has
    exactly two commas and at least 11 characters before the line feed, and
    passes the length and comma tests of the three readers: the latest
    query takes it, the history scan decodes it, and compaction keeps it
    exactly when its timestamp is in the window. *)
Theorem C10_written_line_is_well_formed (r : reading) :
  valid_reading r ->
  let body := encode_body (r_ts r) (r_temp r) (r_hum r) in
  encode (r_ts r) (r_temp r) (r_hum r) = body ++ [LF] /\
  ~ In LF body /\
  count_occ ascii_dec body COMMA = 2%nat /\
  11 <= len body /\
  trim body = body /\
  0 < indexOf COMMA body /\
  indexOf COMMA body < indexOfFrom COMMA (indexOf COMMA body + 1) body /\
  (forall prev, latest_step prev body = body) /\
  decode body = Some (stored r) /\
  (forall cutoff, prune_keeps cutoff body = (cutoff <=? r_ts r)).
Proof.
  intros Hv body.
  assert (Htrim : trim body = body) by apply trim_tight, encode_body_tight.
  assert (Hlen : 11 <= len body) by now apply valid_reading_len.
  assert (Hdec : decode body = Some (stored r)) by now apply valid_reading_decode.
  split; [apply encode_body_LF|].
  split; [apply encode_body_no_LF|].
  split; [apply encode_body_commas|].
  split; [exact Hlen|]. split; [exact Htrim|].
  assert (Hc : 0 < indexOf COMMA body /\
               indexOf COMMA body < indexOfFrom COMMA (indexOf COMMA body + 1) body).
  { unfold decode in Hdec.
    destruct (len body <? 5); [discriminate|].
    destruct (Z.leb_spec (indexOf COMMA body) 0); [discriminate|].
    destruct (Z.leb_spec (indexOfFrom COMMA (indexOf COMMA body + 1) body)
                (indexOf COMMA body)); [discriminate|]. lia. }
  split; [apply Hc|]. split; [apply Hc|]. split; [|split].
  - intros prev. unfold latest_step. rewrite Htrim.
    destruct (Z.ltb_spec 5 (len body)); [reflexivity|lia].
  - exact Hdec.
  - intros cutoff. now rewrite (decode_keeps cutoff body (stored r) Hdec).
Qed.

Lemma C10_witness :
  let r := mkreading 0 (float_of_int 0) (float_of_int 0) in
  let body := encode_body (r_ts r) (r_temp r) (r_hum r) in
  encode (r_ts r) (r_temp r) (r_hum r) = body ++ [LF] /\
  ~ In LF body /\
  count_occ ascii_dec body COMMA = 2%nat /\
  11 <= len body /\
  trim body = body /\
  0 < indexOf COMMA body /\
  indexOf COMMA body < indexOfFrom COMMA (indexOf COMMA body + 1) body /\
  (forall prev, latest_step prev body = body) /\
  decode body = Some (stored r) /\
  (forall cutoff, prune_keeps cutoff body = (cutoff <=? r_ts r)).
Proof.
  intros r.
  apply (C10_written_line_is_well_formed r).
  unfold valid_reading, in_range, LONG_MAX. simpl r_ts.
  repeat split; try lia; vm_compute; reflexivity.
Defined.

(** ** The latest query *)

Section Latest.

Lemma latest_fold (ls : list text) (acc : text) :
  fold_left latest_step ls acc =
  default acc (last (List.filter (fun l => 5 <? len l) (map trim ls))).
Proof.
  induction ls as [|raw ls IH] using rev_ind; [reflexivity|].
  rewrite fold_left_app, map_app, List.filter_app. cbn [fold_left map List.filter].
  unfold latest_step at 1.
  destruct (5 <? len (trim raw)).
  - now rewrite last_snoc.
  - now rewrite app_nil_r.
Qed.

Lemma filter_no_five (ls : list text) :
  Forall (fun l => len l <> 5) ls ->
  List.filter (fun l => 5 <? len l) ls = List.filter (fun l => 5 <=? len l) ls.
Proof.
  induction 1 as [|l ls Hl _ IH]; [reflexivity|]. cbn [List.filter].
  rewrite IH. destruct (Z.ltb_spec 5 (len l)), (Z.leb_spec 5 (len l)); try reflexivity; lia.
Qed.

Lemma complete_encode (log : text) (t0 : Z) (t h : float) :
  complete (log ++ encode t0 t h) = true.
Proof.
  apply complete_app.
  - rewrite encode_body_LF. unfold complete. rewrite rev_app_distr. reflexivity.
  - rewrite encode_body_LF. now destruct (encode_body t0 t h).
Qed.

Lemma appends_log (rs : list reading) (fs : gmap string text) :
  fold_left (fun fs r => append r fs) rs fs !! LOG_PATH =
  match rs with
  | [] => fs !! LOG_PATH
  | _ => Some (default [] (fs !! LOG_PATH) ++
               concat (map (fun r => encode (r_ts r) (r_temp r) (r_hum r)) rs))
  end.
Proof.
  revert fs. induction rs as [|r rs IH]; intros fs; [reflexivity|].
  cbn [fold_left]. rewrite IH. unfold append. rewrite !appendReading_log.
  destruct rs as [|r' rs].
  - cbn [map concat]. now rewrite app_nil_r.
  - unfold default; cbn [from_option id]. cbn [map concat].
    now rewrite <- app_assoc.
Qed.

Lemma complete_appends (rs : list reading) :
  complete (concat (map (fun r => encode (r_ts r) (r_temp r) (r_hum r)) rs)) = true.
Proof.
  induction rs as [|r rs IH] using rev_ind; [reflexivity|].
  rewrite map_app, concat_app. simpl. rewrite app_nil_r. apply complete_encode.
Qed.

(** After a valid Reading is appended to a log of whole lines, the latest
    query answers with it. *)
Lemma handleLatest_append (fs : gmap string text) (r : reading) :
  complete (default [] (fs !! LOG_PATH)) = true -> valid_reading r ->
  handleLatest (append r fs) = mkresp 200 [Json (stored r)].
Proof.
  intros Hc Hv. rewrite handleLatest_decode. unfold append.
  rewrite appendReading_log. cbv zeta.
  rewrite file_lines_app by exact Hc.
  rewrite encode_body_LF, file_lines_cons by apply encode_body_no_LF.
  rewrite file_lines_nil, fold_left_app. cbn [fold_left].
  pose proof (valid_reading_len r Hv) as Hlen.
  assert (Hstep : forall prev,
             latest_step prev (encode_body (r_ts r) (r_temp r) (r_hum r)) =
             encode_body (r_ts r) (r_temp r) (r_hum r)).
  { intros prev. unfold latest_step. rewrite trim_tight by apply encode_body_tight.
    destruct (Z.ltb_spec 5 (len (encode_body (r_ts r) (r_temp r) (r_hum r))));
      [reflexivity|lia]. }
  rewrite !Hstep.
  destruct (Z.ltb_spec (len (encode_body (r_ts r) (r_temp r) (r_hum r))) 5); [lia|].
  now rewrite valid_reading_decode.
Qed.

End Latest.

(** C3, as stated, fails in its general part: when the last long line of
    the log does not decode, [handleLatest] answers 500 instead of going
    back to the last line that does.  Nor is the Reading returned bit for
    bit: a value with more than two decimals comes back rounded. *)
Lemma C3_counterexample :
  ~ (forall (log : text) (d : doc),
        last (records log) = Some d ->
        handleLatest {[ LOG_PATH := log ]} = mkresp 200 [Json d]) /\
  ~ (forall r : reading,
        valid_reading r ->
        handleLatest (append r {[ LOG_PATH := [] ]}) =
        mkresp 200 [Json (mkdoc (r_ts r) (r_temp r) (r_hum r))]).
Proof.
  split.
  - intros H.
    specialize (H (txt "1000,20.00,50.00" ++ LF :: txt "log line lost" ++ [LF])
                  (mkdoc 1000 (toFloat (txt "20.00")) (toFloat (txt "50.00")))).
    assert (Hlast :
      last (records (txt "1000,20.00,50.00" ++ LF :: txt "log line lost" ++ [LF])) =
      Some (mkdoc 1000 (toFloat (txt "20.00")) (toFloat (txt "50.00"))))
      by (vm_compute; reflexivity).
    specialize (H Hlast). vm_compute in H. discriminate H.
  - intros H.
    specialize (H (mkreading 1700000000 (toFloat (txt "21.337")) (toFloat (txt "50")))).
    assert (Hv : valid_reading
                   (mkreading 1700000000 (toFloat (txt "21.337")) (toFloat (txt "50")))).
    { unfold valid_reading, in_range, LONG_MAX. simpl r_ts.
      repeat split; try lia; vm_compute; reflexivity. }
    specialize (H Hv). vm_compute in H. discriminate H.
Qed.

(** C3, amended. After N >= 1 Readings are appended to a log of whole lines
    (an empty one in particular), the last of them valid, the latest query
    answers 200 with the Nth Reading, its values rounded to two decimals.
    In general, on a log without lines of exactly 5 characters, the query
    answers from the last line of at least 5 characters after trimming:
    200 with its record when it decodes, 500 when it does not, and 404 when
    there is no such line. *)
Theorem C3_latest_reading
    (fs0 : gmap string text) (rs : list reading) (r : reading)
    (fs : gmap string text) (log : text) :
  complete (default [] (fs0 !! LOG_PATH)) = true ->
  valid_reading r ->
  fs !! LOG_PATH = Some log ->
  Forall (fun raw => len (trim raw) <> 5) (file_lines log) ->
  handleLatest (fold_left (fun fs r => append r fs) (rs ++ [r]) fs0) =
    mkresp 200 [Json (stored r)] /\
  handleLatest fs =
    match last (List.filter (fun l => 5 <=? len l) (map trim (file_lines log))) with
    | None => mkresp 404 [ErrorJson "no_data"]
    | Some l =>
        match decode l with
        | Some d => mkresp 200 [Json d]
        | None => mkresp 500 [ErrorJson "bad_log_format"]
        end
    end.
Proof.
  intros Hc Hv Hlog Hfive. split.
  - rewrite fold_left_app. cbn [fold_left]. apply handleLatest_append; [|exact Hv].
    rewrite appends_log. destruct rs as [|r' rs]; [exact Hc|].
    unfold default at 1; cbn [from_option id].
    destruct (default [] (fs0 !! LOG_PATH)) as [|c l] eqn:E.
    + apply complete_appends.
    + apply complete_app; [apply complete_appends|].
      cbn [map concat]. rewrite encode_body_LF.
      now destruct (encode_body (r_ts r') (r_temp r') (r_hum r')).
  - rewrite handleLatest_decode, Hlog. cbv zeta. rewrite latest_fold.
    rewrite filter_no_five by (apply Forall_map; exact Hfive).
    destruct (last (List.filter (fun l => 5 <=? len l) (map trim (file_lines log))))
      as [l|] eqn:El; unfold default; cbn [from_option id]; [|reflexivity].
    apply last_Some_elem_of, list_elem_of_In, List.filter_In in El.
    destruct El as [_ El]. apply Z.leb_le in El.
    destruct (Z.ltb_spec (len l) 5); [lia|reflexivity].
Qed.

Lemma C3_witness :
  let fs0 : gmap string text := {[ LOG_PATH := [] ]} in
  let r1 := mkreading 1700000000 (toFloat (txt "20.0")) (toFloat (txt "50.0")) in
  let r2 := mkreading 1700000060 (toFloat (txt "20.5")) (toFloat (txt "51.0")) in
  let log := txt "1700000000,20.00,50.00" ++ LF :: txt "170000" in
  let fs : gmap string text := {[ LOG_PATH := log ]} in
  handleLatest (fold_left (fun fs r => append r fs) ([r1] ++ [r2]) fs0) =
    mkresp 200 [Json (stored r2)] /\
  handleLatest fs =
    match last (List.filter (fun l => 5 <=? len l) (map trim (file_lines log))) with
    | None => mkresp 404 [ErrorJson "no_data"]
    | Some l =>
        match decode l with
        | Some d => mkresp 200 [Json d]
        | None => mkresp 500 [ErrorJson "bad_log_format"]
        end
    end.
Proof.
  intros fs0 r1 r2 log fs.
  apply (C3_latest_reading fs0 [r1] r2 fs log).
  - reflexivity.
  - unfold valid_reading, in_range, LONG_MAX. simpl r_ts.
    repeat split; try lia; vm_compute; reflexivity.
  - reflexivity.
  - vm_compute. repeat constructor; discriminate.
Defined.

(** ** Sampling *)

Section Sampling.

Lemma SFcompare_antisym (x y : float) :
  SFcompare y x = option_map CompOpp (SFcompare x y).
Proof.
  destruct x as [sx|sx| |sx mx ex], y as [sy|sy| |sy my ey]; simpl;
    try reflexivity; try (destruct sx; reflexivity); try (destruct sy; reflexivity);
    try (destruct sx, sy; reflexivity).
  destruct sx, sy; simpl; try reflexivity;
    rewrite (Z.compare_antisym ex ey);
    destruct (ex ?= ey) eqn:E; simpl; try reflexivity;
    rewrite (Pos.compare_cont_antisym mx my Eq); simpl;
    try rewrite CompOpp_involutive; reflexivity.
Qed.

Lemma SFcompare_None (x y : float) :
  SFcompare x y = None -> isnan x = true \/ isnan y = true.
Proof.
  destruct x, y; simpl; try discriminate; auto.
Qed.

(** With no NaN around, [!(x < y)] is [y <= x]. *)
Lemma flt_false_fle (x y : float) :
  isnan x = false -> isnan y = false -> flt x y = false -> fle y x = true.
Proof.
  unfold flt, fle, SFltb, SFleb. intros Hx Hy.
  rewrite (SFcompare_antisym x y).
  destruct (SFcompare x y) as [[| |]|] eqn:E; simpl; try reflexivity; try discriminate.
  destruct (SFcompare_None _ _ E); congruence.
Qed.

Lemma sample_cases (e : env) (d : device) :
  sample e d = d \/
  (sample e d =
     mkdevice (appendReading (nowUtc e) (readTemperature e) (readHumidity e) (flash d))
              (lastSampleMs d) (lastPruneMs d) /\
   TIME_FLOOR < nowUtc e /\
   isnan (readTemperature e) = false /\ isnan (readHumidity e) = false /\
   in_range (-40) 125 (readTemperature e) /\ in_range 0 100 (readHumidity e)).
Proof.
  unfold sample.
  destruct (isnan (readTemperature e)) eqn:Nt; [now left|].
  destruct (isnan (readHumidity e)) eqn:Nh; [now left|].
  destruct (flt (readTemperature e) (float_of_int (-40))) eqn:T1; [now left|].
  destruct (flt (float_of_int 125) (readTemperature e)) eqn:T2; [now left|].
  destruct (flt (readHumidity e) (float_of_int 0)) eqn:H1; [now left|].
  destruct (flt (float_of_int 100) (readHumidity e)) eqn:H2; [now left|].
  cbn [orb]. destruct (Z.ltb_spec TIME_FLOOR (nowUtc e)); [|now left].
  right. unfold in_range. repeat split; try assumption;
    apply flt_false_fle; try assumption; reflexivity.
Qed.

End Sampling.

(** C7. The sampling path either leaves the log as it is or appends the
    sample just read, and it appends only when neither value is NaN, the
    temperature is in [-40, 125], the humidity in [0, 100] and the
    timestamp above the sanity floor: other samples are dropped before
    anything is written.  A pass of [loop] writes to the log through this
    path and the compaction trigger only. *)
Theorem C7_only_valid_samples_are_logged (e : env) (d : device) :
  (sample e d = d \/
   (sample e d =
      mkdevice (appendReading (nowUtc e) (readTemperature e) (readHumidity e) (flash d))
               (lastSampleMs d) (lastPruneMs d) /\
    TIME_FLOOR < nowUtc e /\
    isnan (readTemperature e) = false /\ isnan (readHumidity e) = false /\
    in_range (-40) 125 (readTemperature e) /\ in_range 0 100 (readHumidity e))) /\
  (loop e d = d \/
   exists d1, flash d1 = flash d /\ loop e d = maybePrune e (sample e d1)).
Proof.
  split; [apply sample_cases|].
  unfold loop. destruct (SAMPLE_MS <=? wrap_u32 (millis e - lastSampleMs d)); [|now left].
  right. eexists. split; [|reflexivity]. reflexivity.
Qed.

(** ** The cutoff of a history request *)

Section Cutoff.

Lemma wrap32_shift (x k : Z) : wrap32 (x + k * 4294967296) = wrap32 x.
Proof.
  unfold wrap32. f_equal.
  replace (x + k * 4294967296 + 2147483648) with (x + 2147483648 + k * 4294967296) by lia.
  apply Z_mod_plus_full.
Qed.

Lemma wrap32_sub_r (a b : Z) : wrap32 (a - wrap32 b) = wrap32 (a - b).
Proof.
  pose proof (Z.div_mod (b + 2147483648) 4294967296 ltac:(lia)) as H.
  replace (a - wrap32 b) with (a - b + ((b + 2147483648) / 4294967296) * 4294967296)
    by (unfold wrap32; lia).
  apply wrap32_shift.
Qed.

Lemma days_seconds (nowT days : Z) :
  wrap32 (nowT - wrap32 (wrap32 (days * 24) * 3600)) = wrap32 (nowT - days * 86400).
Proof.
  rewrite wrap32_sub_r.
  pose proof (Z.div_mod (days * 24 + 2147483648) 4294967296 ltac:(lia)) as H.
  replace (nowT - wrap32 (days * 24) * 3600)
    with (nowT - days * 86400
          + ((days * 24 + 2147483648) / 4294967296 * 3600) * 4294967296)
    by (unfold wrap32; lia).
  apply wrap32_shift.
Qed.

End Cutoff.

(** C8. The cutoff of a history request: [since], when present, is used as
    parsed; else [days] (7 when the value is not positive) times 86400 is
    subtracted from the current time, in [time_t] arithmetic, which is exact
    up to 24855 days; else the retention window is subtracted.  In the two
    relative cases the cutoff is 0 when the clock is not above the floor. *)
Theorem C8_history_cutoff (args : gmap string text) (nowT : Z) :
  LONG_MIN <= nowT <= LONG_MAX ->
  (forall a, args !! "since" = Some a -> history_cutoff args nowT = toInt a) /\
  (args !! "since" = None ->
   forall a, args !! "days" = Some a ->
     let days := if toInt a <=? 0 then 7 else toInt a in
     history_cutoff args nowT =
       (if TIME_FLOOR <? nowT then wrap32 (nowT - days * 86400) else 0) /\
     (TIME_FLOOR < nowT -> days <= 24855 ->
      history_cutoff args nowT = nowT - days * 86400)) /\
  (args !! "since" = None -> args !! "days" = None ->
   history_cutoff args nowT = if TIME_FLOOR <? nowT then nowT - KEEP_SECONDS else 0).
Proof.
  intros Hnow. unfold history_cutoff. split; [|split].
  - intros a ->. reflexivity.
  - intros -> a ->. cbv zeta. rewrite days_seconds. split; [reflexivity|].
    intros Hvalid Hdays.
    destruct (Z.ltb_spec TIME_FLOOR nowT); [|lia].
    apply wrap32_small. unfold LONG_MIN, LONG_MAX, TIME_FLOOR in *.
    destruct (Z.leb_spec (toInt a) 0); lia.
  - intros -> ->. destruct (Z.ltb_spec TIME_FLOOR nowT); [|reflexivity].
    apply wrap32_small. unfold LONG_MIN, LONG_MAX, TIME_FLOOR, KEEP_SECONDS in *. lia.
Qed.

Lemma C8_witness :
  let args : gmap string text := {[ "days" := txt "3" ]} in
  (forall a, args !! "since" = Some a -> history_cutoff args 1800000000 = toInt a) /\
  (args !! "since" = None ->
   forall a, args !! "days" = Some a ->
     let days := if toInt a <=? 0 then 7 else toInt a in
     history_cutoff args 1800000000 =
       (if TIME_FLOOR <? 1800000000 then wrap32 (1800000000 - days * 86400) else 0) /\
     (TIME_FLOOR < 1800000000 -> days <= 24855 ->
      history_cutoff args 1800000000 = 1800000000 - days * 86400)) /\
  (args !! "since" = None -> args !! "days" = None ->
   history_cutoff args 1800000000 =
     if TIME_FLOOR <? 1800000000 then 1800000000 - KEEP_SECONDS else 0).
Proof.
  intros args. apply (C8_history_cutoff args 1800000000).
  unfold LONG_MIN, LONG_MAX. lia.
Defined.

(** ** Compaction triggers *)

Section Triggers.

Lemma ensureTime_loop_true (clock : Z -> Z) (start timeoutMs : Z)
      (fuel : nat) (elapsed elapsed' : Z) :
  ensureTime_loop fuel clock start elapsed timeoutMs = (true, elapsed') ->
  TIME_FLOOR < clock (start + elapsed').
Proof.
  revert elapsed. induction fuel as [|k IH]; intros elapsed; simpl; [discriminate|].
  destruct (elapsed <? timeoutMs); [|discriminate].
  destruct (Z.ltb_spec TIME_FLOOR (clock (start + elapsed))).
  - intros [= <-]. assumption.
  - apply IH.
Qed.

(** Given enough rounds, the loop gives up only once the time is out. *)
Lemma ensureTime_loop_false (clock : Z -> Z) (start timeoutMs : Z)
      (fuel : nat) (elapsed elapsed' : Z) :
  timeoutMs - elapsed <= 200 * Z.of_nat fuel ->
  ensureTime_loop fuel clock start elapsed timeoutMs = (false, elapsed') ->
  timeoutMs <= elapsed'.
Proof.
  revert elapsed. induction fuel as [|k IH]; intros elapsed Hf; simpl.
  - intros [= <-]. lia.
  - destruct (Z.ltb_spec elapsed timeoutMs).
    + destruct (TIME_FLOOR <? clock (start + elapsed)); [discriminate|].
      apply IH. lia.
    + intros [= <-]. lia.
Qed.

Lemma maybePrune_invalid_time (e : env) (d : device) :
  nowUtc e <= TIME_FLOOR -> flash (maybePrune e d) = flash d.
Proof.
  intros H. unfold maybePrune.
  destruct (wrap_u32 (millis e - lastPruneMs d) <? PRUNE_EVERY_MS); [reflexivity|].
  destruct (Z.leb_spec (nowUtc e) TIME_FLOOR); [reflexivity|lia].
Qed.

Lemma sample_invalid_time (e : env) (d : device) :
  nowUtc e <= TIME_FLOOR -> sample e d = d.
Proof.
  intros H. destruct (sample_cases e d) as [E|(_ & Hv & _)]; [exact E|lia].
Qed.

Lemma keep_cutoff (t : Z) :
  TIME_FLOOR < t <= LONG_MAX -> wrap32 (t - KEEP_SECONDS) = t - KEEP_SECONDS.
Proof.
  intros H. apply wrap32_small.
  unfold LONG_MIN, LONG_MAX, TIME_FLOOR, KEEP_SECONDS in *. lia.
Qed.

End Triggers.

(** C9. While the clock is not above the sanity floor, neither the periodic
    trigger nor a whole pass of [loop] touches the flash: no compaction
    runs.  When the trigger is due and the clock valid, the log is
    compacted with cutoff now - KEEP_SECONDS.  At startup the log is
    compacted once, with that cutoff, exactly when the clock is valid after
    [ensureTime], which is the case whenever [ensureTime] succeeded;
    [ensureTime] fails only after its 8 seconds. *)
Theorem C9_compaction_gated_by_clock :
  (forall (e : env) (d : device),
      nowUtc e <= TIME_FLOOR ->
      flash (maybePrune e d) = flash d /\ flash (loop e d) = flash d) /\
  (forall (e : env) (d : device),
      TIME_FLOOR < nowUtc e <= LONG_MAX ->
      PRUNE_EVERY_MS <= wrap_u32 (millis e - lastPruneMs d) ->
      flash (maybePrune e d) = pruneOlderThan (nowUtc e - KEEP_SECONDS) (flash d)) /\
  (forall (clock : Z -> Z) (start : Z) (fs : gmap string text),
      let ok := fst (ensureTime clock start 8000) in
      let t := clock (start + snd (ensureTime clock start 8000)) in
      (t <= TIME_FLOOR -> flash (setup clock start fs) = create_log fs) /\
      (TIME_FLOOR < t <= LONG_MAX ->
       flash (setup clock start fs) = pruneOlderThan (t - KEEP_SECONDS) (create_log fs)) /\
      (ok = true -> TIME_FLOOR < t) /\
      (ok = false -> 8000 <= snd (ensureTime clock start 8000))).
Proof.
  split; [|split].
  - intros e d H. split; [now apply maybePrune_invalid_time|].
    unfold loop. destruct (SAMPLE_MS <=? wrap_u32 (millis e - lastSampleMs d)); [|reflexivity].
    rewrite maybePrune_invalid_time, sample_invalid_time by exact H. reflexivity.
  - intros e d Ht Hdue. unfold maybePrune.
    destruct (Z.ltb_spec (wrap_u32 (millis e - lastPruneMs d)) PRUNE_EVERY_MS); [lia|].
    destruct (Z.leb_spec (nowUtc e) TIME_FLOOR); [lia|].
    cbn [flash]. now rewrite keep_cutoff.
  - intros clock start fs ok t. subst ok t. unfold setup.
    destruct (ensureTime clock start 8000) as [ok elapsed] eqn:E. cbn [fst snd flash].
    repeat split.
    + intros H. destruct (Z.ltb_spec TIME_FLOOR (clock (start + elapsed))); [lia|reflexivity].
    + intros H. destruct (Z.ltb_spec TIME_FLOOR (clock (start + elapsed))); [|lia].
      now rewrite keep_cutoff.
    + intros ->. unfold ensureTime in E. eapply ensureTime_loop_true; eauto.
    + intros ->. unfold ensureTime in E. eapply ensureTime_loop_false; [|eauto].
      change (8000 / 200) with 40. simpl. lia.
Qed.

Lemma C9_witness :
  let e0 := mkenv 21600000 0 S754_nan S754_nan in
  let e1 := mkenv 21600000 1800000000 S754_nan S754_nan in
  let d0 := mkdevice {[ LOG_PATH := txt "1000,20.00,50.00" ++ [LF] ]} 0 0 in
  let clock := fun up : Z => if up <? 1000 then 0 else 1800000000 in
  (flash (maybePrune e0 d0) = flash d0 /\ flash (loop e0 d0) = flash d0) /\
  flash (maybePrune e1 d0) = pruneOlderThan (nowUtc e1 - KEEP_SECONDS) (flash d0) /\
  flash (setup clock 0 (flash d0)) =
    pruneOlderThan (1800000000 - KEEP_SECONDS) (create_log (flash d0)).
Proof.
  intros e0 e1 d0 clock. split; [|split].
  - apply (proj1 C9_compaction_gated_by_clock e0 d0).
    unfold TIME_FLOOR. simpl. lia.
  - apply (proj1 (proj2 C9_compaction_gated_by_clock) e1 d0).
    + unfold TIME_FLOOR, LONG_MAX. simpl. lia.
    + vm_compute. discriminate.
  - apply (proj1 (proj2 (proj2 (proj2 C9_compaction_gated_by_clock) clock 0 (flash d0)))).
    vm_compute. split; [reflexivity|discriminate].
Defined.

(** ** The scenarios of the specification *)

Example scenario_log :
  scenario_fs !! LOG_PATH =
  Some (txt "1000,20.00,50.00" ++ LF :: txt "1060,20.50,51.00" ++ LF ::
        txt "1120,21.00,49.50" ++ [LF]).
Proof. vm_compute. reflexivity. Qed.

Example scenario_latest :
  handleLatest scenario_fs =
  mkresp 200 [Json (mkdoc 1120 (toFloat (txt "21.0")) (toFloat (txt "49.5")))].
Proof. vm_compute. reflexivity. Qed.

Example scenario_since :
  sendHistorySince 1060 scenario_fs =
  mkresp 200 [Lit "[";
              Json (mkdoc 1060 (toFloat (txt "20.5")) (toFloat (txt "51.0")));
              Lit ",";
              Json (mkdoc 1120 (toFloat (txt "21.0")) (toFloat (txt "49.5")));
              Lit "]"].
Proof. vm_compute. reflexivity. Qed.

Example scenario_empty :
  handleLatest {[ LOG_PATH := [] ]} = mkresp 404 [ErrorJson "no_data"] /\
  sendHistorySince 0 {[ LOG_PATH := [] ]} = mkresp 200 [Lit "["; Lit "]"] /\
  sendHistorySince 0 ∅ = mkresp 200 [Lit "[]"].
Proof. repeat split; vm_compute; reflexivity. Qed.

Example scenario_compact :
  pruneOlderThan 1100 scenario_fs !! LOG_PATH = Some (txt "1120,21.00,49.50" ++ [CR; LF]) /\
  docs_of (chunks (sendHistorySince 0 (pruneOlderThan 1100 scenario_fs))) =
  [mkdoc 1120 (toFloat (txt "21.0")) (toFloat (txt "49.5"))].
Proof. split; vm_compute; reflexivity. Qed.

Example latest_skips_five_characters :
  handleLatest {[ LOG_PATH := txt "1000,20.00,50.00" ++ LF :: txt "1,2,3" ++ [LF] ]} =
  mkresp 200 [Json (mkdoc 1000 (toFloat (txt "20.00")) (toFloat (txt "50.00")))].
Proof. vm_compute. reflexivity. Qed.

(** * Further properties of the code *)

(** ** The shape of the history response *)

Section HistoryShape.

Variable sinceTs : Z.

Lemma since_fold_chunks (ls : list text) (first : bool) (sent : list chunk) :
  snd (fold_left (since_step sinceTs) ls (first, sent)) =
  sent ++ (if first
           then json_items (List.filter (fun d => sinceTs <=? ts d)
                              (omap decode (map trim ls)))
           else json_rest (List.filter (fun d => sinceTs <=? ts d)
                             (omap decode (map trim ls)))).
Proof.
  revert first sent. induction ls as [|raw ls IH]; intros first sent.
  - simpl. destruct first; now rewrite app_nil_r.
  - cbn [fold_left map omap list_omap]. rewrite since_step_decode.
    destruct (decode (trim raw)) as [d|]; [|apply IH].
    cbn [List.filter]. rewrite (Z.leb_antisym (ts d) sinceTs).
    destruct (ts d <? sinceTs); cbn [negb]; [apply IH|].
    rewrite IH. destruct first; cbn [json_items json_rest map concat app];
      rewrite <- !app_assoc; reflexivity.
Qed.

Lemma sendHistorySince_shape (fs : gmap string text) (log : text) :
  fs !! LOG_PATH = Some log ->
  sendHistorySince sinceTs fs =
  mkresp 200 (Lit "[" :: json_items (List.filter (fun d => sinceTs <=? ts d) (records log))
              ++ [Lit "]"]).
Proof.
  intros Hlog. unfold sendHistorySince, LittleFS.open_read. rewrite Hlog.
  pose proof (since_fold_chunks (file_lines log) true [Lit "["]) as H.
  destruct (fold_left (since_step sinceTs) (file_lines log) (true, [Lit "["]))
    as [first sent].
  cbn [snd] in H. rewrite H. reflexivity.
Qed.

End HistoryShape.

(** X1. Whatever the log holds, the history query answers 200 with a
    well-formed array: an opening bracket, the in-window records in stored
    order with exactly one comma between neighbours, a closing bracket. *)
Theorem X1_history_response_is_an_array
    (fs : gmap string text) (cutoff : Z) (log : text) :
  fs !! LOG_PATH = Some log ->
  sendHistorySince cutoff fs =
  mkresp 200 (Lit "[" :: json_items (List.filter (fun d => cutoff <=? ts d) (records log))
              ++ [Lit "]"]).
Proof. apply sendHistorySince_shape. Qed.

Lemma X1_witness :
  sendHistorySince 1060 scenario_fs =
  mkresp 200
    (Lit "[" ::
     json_items
       (List.filter (fun d => 1060 <=? ts d)
          (records (txt "1000,20.00,50.00" ++ LF :: txt "1060,20.50,51.00" ++ LF ::
                    txt "1120,21.00,49.50" ++ [LF])))
     ++ [Lit "]"]).
Proof.
  apply (X1_history_response_is_an_array scenario_fs 1060).
  vm_compute. reflexivity.
Defined.

(** ** When the latest query has no data *)

Lemma handleLatest_long_lines (fs : gmap string text) :
  handleLatest fs =
  match last (long_lines (default [] (fs !! LOG_PATH))) with
  | None => mkresp 404 [ErrorJson "no_data"]
  | Some l =>
      match decode l with
      | Some d => mkresp 200 [Json d]
      | None => mkresp 500 [ErrorJson "bad_log_format"]
      end
  end.
Proof.
  rewrite handleLatest_decode. unfold long_lines.
  destruct (fs !! LOG_PATH) as [log|]; [|reflexivity].
  unfold default at 1; cbn [from_option id]. cbv zeta. rewrite latest_fold.
  destruct (last (List.filter (fun l => 5 <? len l) (map trim (file_lines log))))
    as [l|] eqn:El; unfold default; cbn [from_option id]; [|reflexivity].
  apply last_Some_elem_of, list_elem_of_In, List.filter_In in El.
  destruct El as [_ El]. apply Z.ltb_lt in El.
  destruct (Z.ltb_spec (len l) 5); [lia|reflexivity].
Qed.

(** X2. The latest query answers 404 [no_data] exactly when the log is
    absent or has no line of more than 5 characters after trimming; with
    such a line it answers 200 or 500, never 404. *)
Theorem X2_latest_no_data_iff (fs : gmap string text) :
  handleLatest fs = mkresp 404 [ErrorJson "no_data"] <->
  long_lines (default [] (fs !! LOG_PATH)) = [].
Proof.
  rewrite handleLatest_long_lines. split.
  - destruct (long_lines (default [] (fs !! LOG_PATH))) as [|l ls] eqn:E using rev_ind;
      [reflexivity|].
    rewrite last_snoc. destruct (decode l); discriminate.
  - intros ->. reflexivity.
Qed.

Lemma X2_witness :
  handleLatest {[ LOG_PATH := txt "1,2" ++ LF :: txt "   " ++ [LF] ]} =
  mkresp 404 [ErrorJson "no_data"].
Proof.
  apply (proj2 (X2_latest_no_data_iff {[ LOG_PATH := txt "1,2" ++ LF :: txt "   " ++ [LF] ]})).
  vm_compute. reflexivity.
Defined.

(** ** What compaction does to the file system *)

Section PruneEffect.

Lemma pruneOlderThan_effect (cutoffTs : Z) (fs : gmap string text) (log : text) :
  fs !! LOG_PATH = Some log ->
  pruneOlderThan cutoffTs fs = <[LOG_PATH := compacted cutoffTs log]> (delete TMP_PATH fs).
Proof.
  intros Hlog. unfold pruneOlderThan, LittleFS.open_read. rewrite Hlog.
  rewrite prune_fold. change ([] ++ ?x) with x. fold (compacted cutoffTs log).
  unfold LittleFS.rename, LittleFS.remove, LittleFS.write_file.
  assert (Hne : TMP_PATH <> LOG_PATH) by discriminate.
  rewrite lookup_delete_ne, lookup_insert_eq by congruence.
  apply map_eq. intros k.
  destruct (decide (k = LOG_PATH)) as [->|Hk].
  - now rewrite !lookup_insert_eq.
  - rewrite !lookup_insert_ne by congruence.
    destruct (decide (k = TMP_PATH)) as [->|Hk'].
    + now rewrite !lookup_delete_eq.
    + rewrite !lookup_delete_ne by congruence.
      now rewrite lookup_insert_ne by congruence.
Qed.

Lemma crlf_lines_complete (ks : list text) : complete (crlf_lines ks) = true.
Proof.
  induction ks as [|k ks IH] using rev_ind; [reflexivity|].
  unfold crlf_lines. rewrite map_app, concat_app. cbn [map concat].
  rewrite app_nil_r. apply complete_app.
  - unfold complete. rewrite rev_app_distr. reflexivity.
  - now destruct k.
Qed.

Lemma compacted_trimmed_lines (cutoffTs : Z) (log : text) :
  map trim (file_lines (compacted cutoffTs log)) =
  List.filter (prune_keeps cutoffTs) (map trim (file_lines log)).
Proof.
  pose proof (compacted_lines cutoffTs log) as H.
  rewrite prune_fold in H. exact H.
Qed.

Lemma prune_keeps_mono (c1 c2 : Z) (l : text) :
  c1 <= c2 -> prune_keeps c2 l = true -> prune_keeps c1 l = true.
Proof.
  unfold prune_keeps. intros Hc H.
  apply andb_prop in H. destruct H as [H H3]. rewrite H. cbn [andb].
  apply Z.leb_le in H3. apply Z.leb_le. lia.
Qed.

Lemma filter_keeps_twice (c1 c2 : Z) (ls : list text) :
  c1 <= c2 ->
  List.filter (prune_keeps c2) (List.filter (prune_keeps c1) ls) =
  List.filter (prune_keeps c2) ls.
Proof.
  intros Hc. induction ls as [|l ls IH]; [reflexivity|]. cbn [List.filter].
  destruct (prune_keeps c2 l) eqn:E2.
  - rewrite (prune_keeps_mono c1 c2 l Hc E2). cbn [List.filter]. now rewrite E2, IH.
  - destruct (prune_keeps c1 l); cbn [List.filter]; rewrite ?E2; exact IH.
Qed.

Lemma compacted_twice (c1 c2 : Z) (log : text) :
  c1 <= c2 -> compacted c2 (compacted c1 log) = compacted c2 log.
Proof.
  intros Hc. unfold compacted at 1. rewrite compacted_trimmed_lines.
  rewrite filter_keeps_twice by exact Hc. reflexivity.
Qed.

End PruneEffect.

(** X3. Compaction replaces the log by its kept lines, each trimmed and
    ended with CR LF, removes the temporary file and leaves every other
    file as it was; the rewritten log consists of whole lines.  Without a
    log nothing at all is changed. *)
Theorem X3_compaction_effect (fs : gmap string text) (cutoff : Z) :
  (forall log,
      fs !! LOG_PATH = Some log ->
      pruneOlderThan cutoff fs !! LOG_PATH = Some (compacted cutoff log) /\
      complete (compacted cutoff log) = true /\
      pruneOlderThan cutoff fs !! TMP_PATH = None /\
      (forall path, path <> LOG_PATH -> path <> TMP_PATH ->
                    pruneOlderThan cutoff fs !! path = fs !! path)) /\
  (fs !! LOG_PATH = None -> pruneOlderThan cutoff fs = fs).
Proof.
  split; [|apply pruneOlderThan_absent].
  intros log Hlog. rewrite (pruneOlderThan_effect cutoff fs log Hlog).
  assert (Hne : TMP_PATH <> LOG_PATH) by discriminate.
  split; [apply lookup_insert_eq|].
  split; [apply crlf_lines_complete|]. split.
  - rewrite lookup_insert_ne by congruence. apply lookup_delete_eq.
  - intros path H1 H2. rewrite lookup_insert_ne by congruence.
    now rewrite lookup_delete_ne by congruence.
Qed.

Lemma X3_witness :
  let fs : gmap string text :=
    {[ LOG_PATH := txt " 1800000000,21.50,40.00" ++ LF :: txt "1000,1.00,2.00" ++ [LF];
       TMP_PATH := txt "stale"; "/index.html" := txt "page" ]} in
  pruneOlderThan 1700000000 fs !! LOG_PATH = Some (txt "1800000000,21.50,40.00" ++ [CR; LF]) /\
  pruneOlderThan 1700000000 fs !! TMP_PATH = None /\
  pruneOlderThan 1700000000 fs !! "/index.html" = Some (txt "page").
Proof.
  intros fs.
  destruct (proj1 (X3_compaction_effect fs 1700000000)
              (txt " 1800000000,21.50,40.00" ++ LF :: txt "1000,1.00,2.00" ++ [LF])
              eq_refl) as (H1 & _ & H3 & H4).
  split; [exact H1|]. split; [exact H3|].
  rewrite (H4 "/index.html"); [reflexivity|discriminate|discriminate].
Defined.

(** X4. Compacting again with the same or a later cutoff gives the file
    system a single compaction with the later cutoff gives: compaction is
    idempotent, and successive compactions compose to the last one. *)
Theorem X4_compaction_composes (fs : gmap string text) (c1 c2 : Z) :
  c1 <= c2 ->
  pruneOlderThan c2 (pruneOlderThan c1 fs) = pruneOlderThan c2 fs.
Proof.
  intros Hc. destruct (fs !! LOG_PATH) as [log|] eqn:Hlog.
  - rewrite (pruneOlderThan_effect c1 fs log Hlog).
    rewrite (pruneOlderThan_effect c2 _ (compacted c1 log)) by apply lookup_insert_eq.
    rewrite (pruneOlderThan_effect c2 fs log Hlog).
    rewrite compacted_twice by exact Hc.
    assert (Hne : TMP_PATH <> LOG_PATH) by discriminate.
    apply map_eq. intros k.
    destruct (decide (k = LOG_PATH)) as [->|Hk].
    + now rewrite !lookup_insert_eq.
    + rewrite !lookup_insert_ne by congruence.
      destruct (decide (k = TMP_PATH)) as [->|Hk'].
      * now rewrite !lookup_delete_eq.
      * repeat first [rewrite lookup_delete_ne by congruence
                     |rewrite lookup_insert_ne by congruence].
        reflexivity.
  - now rewrite !(pruneOlderThan_absent _ fs Hlog).
Qed.

Lemma X4_witness :
  pruneOlderThan 1100 (pruneOlderThan 1050 scenario_fs) = pruneOlderThan 1100 scenario_fs.
Proof.
  apply (X4_compaction_composes scenario_fs 1050 1100). lia.
Defined.

(** ** Writing a log and reading it back *)

Section LogRoundTrip.

Lemma records_encode (r : reading) :
  valid_reading r -> records (encode (r_ts r) (r_temp r) (r_hum r)) = [stored r].
Proof.
  intros Hv. unfold records.
  rewrite encode_body_LF, file_lines_cons by apply encode_body_no_LF.
  rewrite file_lines_nil. cbn [map].
  rewrite trim_tight by apply encode_body_tight.
  cbn [omap list_omap]. now rewrite valid_reading_decode.
Qed.

Lemma written_snoc (rs : list reading) (r : reading) :
  written (rs ++ [r]) = written rs ++ encode (r_ts r) (r_temp r) (r_hum r).
Proof.
  unfold written. rewrite map_app, concat_app. cbn [map concat].
  now rewrite app_nil_r.
Qed.

Lemma records_written (rs : list reading) :
  Forall valid_reading rs -> records (written rs) = map stored rs.
Proof.
  induction rs as [|r rs IH] using rev_ind; intros Hv; [reflexivity|].
  apply Forall_app in Hv. destruct Hv as [Hrs Hr]. inversion Hr; subst.
  rewrite written_snoc, records_app by apply complete_appends.
  rewrite IH, records_encode, map_app by assumption. reflexivity.
Qed.

Lemma appends_written (rs : list reading) (fs : gmap string text) :
  default [] (fs !! LOG_PATH) = [] ->
  default [] (fold_left (fun fs r => append r fs) rs fs !! LOG_PATH) = written rs.
Proof.
  intros H0. rewrite appends_log. destruct rs as [|r rs]; [exact H0|].
  rewrite H0. reflexivity.
Qed.

End LogRoundTrip.

(** X5. Valid Readings appended one after the other to an empty (or absent)
    log are read back as one record each, in the order written, with their
    values rounded to two decimals; the history query returns those of them
    at or after its cutoff. *)
Theorem X5_log_round_trip (fs : gmap string text) (rs : list reading) (cutoff : Z) :
  default [] (fs !! LOG_PATH) = [] ->
  Forall valid_reading rs ->
  let fs' := fold_left (fun fs r => append r fs) rs fs in
  records (default [] (fs' !! LOG_PATH)) = map stored rs /\
  docs_of (chunks (sendHistorySince cutoff fs')) =
    List.filter (fun d => cutoff <=? ts d) (map stored rs).
Proof.
  intros H0 Hv fs'. subst fs'.
  rewrite sendHistorySince_docs, appends_written by exact H0.
  now rewrite records_written.
Qed.

Lemma X5_witness :
  let rs := [mkreading 1700000000 (toFloat (txt "20.004")) (toFloat (txt "50.0"));
             mkreading 1700000060 (toFloat (txt "-3.5")) (toFloat (txt "99.999"))] in
  let fs' := fold_left (fun fs r => append r fs) rs ∅ in
  records (default [] (fs' !! LOG_PATH)) = map stored rs /\
  docs_of (chunks (sendHistorySince 1700000060 fs')) =
    List.filter (fun d => 1700000060 <=? ts d) (map stored rs).
Proof.
  intros rs. apply (X5_log_round_trip ∅ rs 1700000060).
  - reflexivity.
  - unfold rs, valid_reading, in_range, LONG_MAX.
    repeat constructor; simpl r_ts; try lia; vm_compute; reflexivity.
Defined.

(** ** Queries after a compaction *)

Section AfterCompaction.

Lemma records_compacted (p : Z) (log : text) :
  records (compacted p log) = List.filter (fun d => p <=? ts d) (records log).
Proof.
  unfold records. rewrite compacted_trimmed_lines. apply omap_decode_keeps.
Qed.

Lemma filter_window_twice (p c : Z) (ds : list doc) :
  p <= c ->
  List.filter (fun d => c <=? ts d) (List.filter (fun d => p <=? ts d) ds) =
  List.filter (fun d => c <=? ts d) ds.
Proof.
  intros Hpc. induction ds as [|d ds IH]; [reflexivity|]. cbn [List.filter].
  destruct (Z.leb_spec c (ts d)), (Z.leb_spec p (ts d)); cbn [List.filter];
    try lia.
  - destruct (Z.leb_spec c (ts d)); [|lia]. now rewrite IH.
  - destruct (Z.leb_spec c (ts d)); [lia|]. exact IH.
  - exact IH.
Qed.

Lemma sendHistorySince_after_prune (p c : Z) (fs : gmap string text) :
  p <= c -> sendHistorySince c (pruneOlderThan p fs) = sendHistorySince c fs.
Proof.
  intros Hpc. destruct (fs !! LOG_PATH) as [log|] eqn:Hlog.
  - rewrite (sendHistorySince_shape c fs log Hlog).
    rewrite (sendHistorySince_shape c _ (compacted p log)).
    + now rewrite records_compacted, filter_window_twice.
    + rewrite (pruneOlderThan_effect p fs log Hlog). apply lookup_insert_eq.
  - now rewrite pruneOlderThan_absent.
Qed.

Lemma last_filter_kept {A : Type} (P Q : A -> bool) (ls : list A) (l : A) :
  last (List.filter P ls) = Some l -> Q l = true ->
  last (List.filter P (List.filter Q ls)) = Some l.
Proof.
  induction ls as [|x ls IH] using rev_ind; [discriminate|].
  rewrite !List.filter_app. cbn [List.filter]. intros Hl Hq.
  destruct (P x) eqn:Px.
  - rewrite last_snoc in Hl. injection Hl as ->.
    rewrite Hq. cbn [List.filter]. rewrite Px. apply last_snoc.
  - rewrite app_nil_r in Hl.
    destruct (Q x); cbn [List.filter]; rewrite ?Px, ?app_nil_r; now apply IH.
Qed.

Lemma handleLatest_after_prune (p : Z) (fs : gmap string text) (l : text) :
  last (long_lines (default [] (fs !! LOG_PATH))) = Some l ->
  prune_keeps p l = true ->
  handleLatest (pruneOlderThan p fs) = handleLatest fs.
Proof.
  intros Hl Hk. destruct (fs !! LOG_PATH) as [log|] eqn:Hlog;
    [|now rewrite pruneOlderThan_absent].
  rewrite !handleLatest_long_lines, Hlog.
  rewrite (pruneOlderThan_effect p fs log Hlog), lookup_insert_eq.
  unfold default in *; cbn [from_option id] in *.
  rewrite Hl. unfold long_lines in *. rewrite compacted_trimmed_lines.
  now rewrite (last_filter_kept _ _ _ l Hl Hk).
Qed.

End AfterCompaction.

(** X6. A compaction with cutoff [p] is invisible to every history query
    with a cutoff of [p] or later: the response is the same with and
    without the compaction. *)
Theorem X6_history_unchanged_by_compaction (fs : gmap string text) (p c : Z) :
  p <= c ->
  sendHistorySince c (pruneOlderThan p fs) = sendHistorySince c fs.
Proof. apply sendHistorySince_after_prune. Qed.

Lemma X6_witness :
  sendHistorySince 1060 (pruneOlderThan 1050 scenario_fs) =
  sendHistorySince 1060 scenario_fs.
Proof.
  apply (X6_history_unchanged_by_compaction scenario_fs 1050 1060). lia.
Defined.

(** X7. When the last line of more than 5 characters passes the test of
    the compactor (its timestamp is in the window), compaction does not
    change the answer of the latest query. *)
Theorem X7_latest_unchanged_by_compaction (fs : gmap string text) (p : Z) (l : text) :
  last (long_lines (default [] (fs !! LOG_PATH))) = Some l ->
  prune_keeps p l = true ->
  handleLatest (pruneOlderThan p fs) = handleLatest fs.
Proof. apply handleLatest_after_prune. Qed.

Lemma X7_witness :
  handleLatest (pruneOlderThan 1100 scenario_fs) = handleLatest scenario_fs.
Proof.
  apply (X7_latest_unchanged_by_compaction scenario_fs 1100 (txt "1120,21.00,49.50"));
    vm_compute; reflexivity.
Defined.

(** ** One pass of the loop, end to end *)

Section LoopPass.

Lemma fle_flt (x y : float) : fle y x = true -> flt x y = false.
Proof.
  unfold fle, flt, SFleb, SFltb. rewrite (SFcompare_antisym y x).
  destruct (SFcompare y x) as [[| |]|]; simpl; try reflexivity; discriminate.
Qed.

Lemma sample_valid (e : env) (d : device) :
  in_range (-40) 125 (readTemperature e) ->
  in_range 0 100 (readHumidity e) ->
  TIME_FLOOR < nowUtc e ->
  sample e d =
  mkdevice (appendReading (nowUtc e) (readTemperature e) (readHumidity e) (flash d))
           (lastSampleMs d) (lastPruneMs d).
Proof.
  intros Ht Hh Hnow. unfold sample.
  destruct (in_range_finite _ _ _ Ht) as [-> _].
  destruct (in_range_finite _ _ _ Hh) as [-> _].
  destruct Ht as [Ht1 Ht2], Hh as [Hh1 Hh2].
  rewrite (fle_flt _ _ Ht1), (fle_flt _ _ Ht2), (fle_flt _ _ Hh1), (fle_flt _ _ Hh2).
  cbn [orb]. destruct (Z.ltb_spec TIME_FLOOR (nowUtc e)); [reflexivity|lia].
Qed.

Lemma long_lines_append (log : text) (r : reading) :
  complete log = true -> valid_reading r ->
  long_lines (log ++ encode (r_ts r) (r_temp r) (r_hum r)) =
  long_lines log ++ [encode_body (r_ts r) (r_temp r) (r_hum r)].
Proof.
  intros Hc Hv. unfold long_lines. rewrite file_lines_app by exact Hc.
  rewrite encode_body_LF, file_lines_cons by apply encode_body_no_LF.
  rewrite file_lines_nil, map_app, List.filter_app. cbn [map List.filter].
  rewrite trim_tight by apply encode_body_tight.
  pose proof (valid_reading_len r Hv).
  destruct (Z.ltb_spec 5 (len (encode_body (r_ts r) (r_temp r) (r_hum r))));
    [reflexivity|lia].
Qed.

Lemma handleLatest_append_prune (fs : gmap string text) (r : reading) (p : Z) :
  complete (default [] (fs !! LOG_PATH)) = true -> valid_reading r -> p <= r_ts r ->
  handleLatest (pruneOlderThan p (append r fs)) = mkresp 200 [Json (stored r)].
Proof.
  intros Hc Hv Hp.
  rewrite (handleLatest_after_prune p (append r fs)
             (encode_body (r_ts r) (r_temp r) (r_hum r))).
  - now apply handleLatest_append.
  - unfold append. rewrite appendReading_log.
    unfold default at 1; cbn [from_option id].
    rewrite long_lines_append by assumption. apply last_snoc.
  - rewrite (decode_keeps p _ (stored r)) by now apply valid_reading_decode.
    apply Z.leb_le. exact Hp.
Qed.

Lemma maybePrune_lastSampleMs (e : env) (d : device) :
  lastSampleMs (maybePrune e d) = lastSampleMs d.
Proof.
  unfold maybePrune.
  destruct (wrap_u32 (millis e - lastPruneMs d) <? PRUNE_EVERY_MS); [reflexivity|].
  destruct (nowUtc e <=? TIME_FLOOR); reflexivity.
Qed.

Lemma sample_lastSampleMs (e : env) (d : device) :
  lastSampleMs (sample e d) = lastSampleMs d.
Proof.
  destruct (sample_cases e d) as [->|[-> _]]; reflexivity.
Qed.

End LoopPass.

(** X8. A pass of [loop] in which a sample is due, the sensor values are
    in range and the clock is valid leaves a log whose latest record is
    that sample, its values rounded to two decimals, whether or not the
    compaction trigger fired in the same pass. *)
Theorem X8_loop_logs_the_sample (e : env) (d : device) :
  complete (default [] (flash d !! LOG_PATH)) = true ->
  SAMPLE_MS <= wrap_u32 (millis e - lastSampleMs d) ->
  in_range (-40) 125 (readTemperature e) ->
  in_range 0 100 (readHumidity e) ->
  TIME_FLOOR < nowUtc e <= LONG_MAX ->
  handleLatest (flash (loop e d)) =
  mkresp 200 [Json (mkdoc (nowUtc e) (round2 (readTemperature e))
                          (round2 (readHumidity e)))].
Proof.
  intros Hc Hdue Ht Hh Hnow. unfold loop.
  destruct (Z.leb_spec SAMPLE_MS (wrap_u32 (millis e - lastSampleMs d))); [|lia].
  rewrite sample_valid by (assumption || lia). cbn [flash lastSampleMs lastPruneMs].
  set (r := mkreading (nowUtc e) (readTemperature e) (readHumidity e)).
  assert (Hv : valid_reading r).
  { unfold valid_reading, r. cbn [r_ts r_temp r_hum].
    unfold TIME_FLOOR in Hnow. split; [lia|]. split; assumption. }
  change (appendReading (nowUtc e) (readTemperature e) (readHumidity e) (flash d))
    with (append r (flash d)).
  change (mkdoc (nowUtc e) (round2 (readTemperature e)) (round2 (readHumidity e)))
    with (stored r).
  unfold maybePrune. cbn [flash lastSampleMs lastPruneMs].
  destruct (wrap_u32 (millis e - lastPruneMs d) <? PRUNE_EVERY_MS);
    cbn [flash]; [now apply handleLatest_append|].
  destruct (Z.leb_spec (nowUtc e) TIME_FLOOR); [lia|]. cbn [flash].
  apply handleLatest_append_prune; [assumption|assumption|].
  rewrite keep_cutoff by lia. unfold r, KEEP_SECONDS. cbn [r_ts]. lia.
Qed.

Lemma X8_witness :
  let e := mkenv 21600000 1800000000 (toFloat (txt "21.337")) (toFloat (txt "55.5")) in
  let d := mkdevice scenario_fs 0 0 in
  handleLatest (flash (loop e d)) =
  mkresp 200 [Json (mkdoc (nowUtc e) (round2 (readTemperature e))
                          (round2 (readHumidity e)))].
Proof.
  intros e d. apply (X8_loop_logs_the_sample e d).
  - vm_compute. reflexivity.
  - vm_compute. discriminate.
  - split; vm_compute; reflexivity.
  - split; vm_compute; reflexivity.
  - unfold TIME_FLOOR, LONG_MAX. simpl. lia.
Defined.

(** X9. In a history request without [since], a [days] value that is not
    positive, or is 7, gives the cutoff and the response of a request
    without [days]: the substitute value is the retention window. *)
Theorem X9_days_default_is_retention
    (args : gmap string text) (a : text) (nowT : Z) (fs : gmap string text) :
  args !! "since" = None ->
  args !! "days" = Some a ->
  toInt a <= 0 \/ toInt a = 7 ->
  history_cutoff args nowT = history_cutoff (delete "days" args) nowT /\
  handleHistory args nowT fs = handleHistory (delete "days" args) nowT fs.
Proof.
  intros Hs Hd Ha.
  assert (E : history_cutoff args nowT = history_cutoff (delete "days" args) nowT).
  { unfold history_cutoff. rewrite Hs, Hd.
    rewrite lookup_delete_ne by discriminate. rewrite Hs, lookup_delete_eq.
    assert (Hdays : (if toInt a <=? 0 then 7 else toInt a) = 7)
      by (destruct (Z.leb_spec (toInt a) 0); lia).
    cbv zeta. rewrite Hdays. reflexivity. }
  split; [exact E|]. unfold handleHistory. now rewrite E.
Qed.

Lemma X9_witness :
  let args : gmap string text := {[ "days" := txt "-3" ]} in
  history_cutoff args 1800000000 = history_cutoff (delete "days" args) 1800000000 /\
  handleHistory args 1800000000 scenario_fs =
    handleHistory (delete "days" args) 1800000000 scenario_fs.
Proof.
  intros args. apply (X9_days_default_is_retention args (txt "-3")).
  - reflexivity.
  - reflexivity.
  - left. vm_compute. discriminate.
Defined.

(** X10. The compaction trigger fires at most once per period: once it has
    been due (whether it compacted or found the clock invalid), a further
    call within [PRUNE_EVERY_MS] ticks changes nothing. *)
Theorem X10_prune_trigger_once_per_period (e e' : env) (d : device) :
  PRUNE_EVERY_MS <= wrap_u32 (millis e - lastPruneMs d) ->
  wrap_u32 (millis e' - millis e) < PRUNE_EVERY_MS ->
  lastPruneMs (maybePrune e d) = millis e /\
  maybePrune e' (maybePrune e d) = maybePrune e d.
Proof.
  intros Hdue Hsoon.
  assert (Hl : lastPruneMs (maybePrune e d) = millis e).
  { unfold maybePrune.
    destruct (Z.ltb_spec (wrap_u32 (millis e - lastPruneMs d)) PRUNE_EVERY_MS); [lia|].
    destruct (nowUtc e <=? TIME_FLOOR); reflexivity. }
  split; [exact Hl|].
  unfold maybePrune at 1. rewrite Hl.
  destruct (Z.ltb_spec (wrap_u32 (millis e' - millis e)) PRUNE_EVERY_MS); [reflexivity|lia].
Qed.

Lemma X10_witness :
  let e := mkenv 21600000 0 S754_nan S754_nan in
  let e' := mkenv 43199999 1800000000 S754_nan S754_nan in
  let d := mkdevice scenario_fs 0 0 in
  lastPruneMs (maybePrune e d) = millis e /\
  maybePrune e' (maybePrune e d) = maybePrune e d.
Proof.
  intros e e' d. apply (X10_prune_trigger_once_per_period e e' d).
  - vm_compute. discriminate.
  - vm_compute. reflexivity.
Defined.

(** X11. When a sample is due, a pass of [loop] advances [lastSampleMs] by
    exactly one sampling period, so the lag behind the tick counter shrinks
    by [SAMPLE_MS] whatever the pass took in between: the cadence does not
    drift, also across the wrap of the 32-bit counter.  When none is due the
    pass changes nothing. *)
Theorem X11_sampling_cadence (e : env) (d : device) :
  0 <= lastSampleMs d < 4294967296 ->
  (SAMPLE_MS <= wrap_u32 (millis e - lastSampleMs d) ->
   lastSampleMs (loop e d) = wrap_u32 (lastSampleMs d + SAMPLE_MS) /\
   0 <= lastSampleMs (loop e d) < 4294967296 /\
   wrap_u32 (millis e - lastSampleMs (loop e d)) =
     wrap_u32 (millis e - lastSampleMs d) - SAMPLE_MS) /\
  (wrap_u32 (millis e - lastSampleMs d) < SAMPLE_MS -> loop e d = d).
Proof.
  intros Hr. split.
  - intros Hdue.
    assert (Hl : lastSampleMs (loop e d) = wrap_u32 (lastSampleMs d + SAMPLE_MS)).
    { unfold loop.
      destruct (Z.leb_spec SAMPLE_MS (wrap_u32 (millis e - lastSampleMs d))); [|lia].
      now rewrite maybePrune_lastSampleMs, sample_lastSampleMs. }
    rewrite Hl. unfold wrap_u32 in *. split; [reflexivity|].
    split; [apply Z.mod_pos_bound; lia|].
    rewrite Zminus_mod_idemp_r.
    replace (millis e - (lastSampleMs d + SAMPLE_MS))
      with (millis e - lastSampleMs d - SAMPLE_MS) by lia.
    rewrite <- Zminus_mod_idemp_l.
    pose proof (Z.mod_pos_bound (millis e - lastSampleMs d) 4294967296 ltac:(lia)).
    apply Z.mod_small. unfold SAMPLE_MS in *. lia.
  - intros Hnot. unfold loop.
    destruct (Z.leb_spec SAMPLE_MS (wrap_u32 (millis e - lastSampleMs d))); [lia|reflexivity].
Qed.

Lemma X11_witness :
  let e := mkenv 30000 0 S754_nan S754_nan in
  let d := mkdevice scenario_fs 4294937296 0 in
  lastSampleMs (loop e d) = wrap_u32 (lastSampleMs d + SAMPLE_MS) /\
  0 <= lastSampleMs (loop e d) < 4294967296 /\
  wrap_u32 (millis e - lastSampleMs (loop e d)) =
    wrap_u32 (millis e - lastSampleMs d) - SAMPLE_MS.
Proof.
  intros e d. apply (proj1 (X11_sampling_cadence e d ltac:(simpl; lia))).
  vm_compute. discriminate.
Defined.

(** ** Waiting for the clock *)

Section EnsureTime.

Variable clock : Z -> Z.
Variable start : Z.

Lemma ensureTime_loop_polls (timeoutMs : Z) (fuel : nat) (i : Z) (ok : bool) (el : Z) :
  0 <= i -> timeoutMs - 200 * i <= 200 * Z.of_nat fuel ->
  (forall j, 0 <= j < i -> poll_valid clock start j = false) ->
  ensureTime_loop fuel clock start (200 * i) timeoutMs = (ok, el) ->
  exists k,
    el = 200 * k /\ i <= k /\
    (forall j, 0 <= j < k -> poll_valid clock start j = false) /\
    (ok = true -> 200 * k < timeoutMs /\ poll_valid clock start k = true) /\
    (ok = false -> timeoutMs <= 200 * k /\ (k = i \/ 200 * (k - 1) < timeoutMs)).
Proof.
  revert i. induction fuel as [|fuel IH]; intros i Hi Hf Hprev; cbn [ensureTime_loop].
  - intros [= <- <-]. exists i. repeat split; try lia; try discriminate; auto.
  - destruct (Z.ltb_spec (200 * i) timeoutMs) as [Hlt|Hge].
    + fold (poll_valid clock start i).
      destruct (poll_valid clock start i) eqn:Ev.
      * intros [= <- <-]. exists i. repeat split; try lia; try discriminate; auto.
      * replace (200 * i + 200) with (200 * (i + 1)) by lia. intros E.
        destruct (IH (i + 1) ltac:(lia) ltac:(lia)) with (2 := E)
          as (k & Hk & Hik & Hinv & Ht & Hfa).
        { intros j Hj. destruct (Z.eq_dec j i) as [->|]; [exact Ev|apply Hprev; lia]. }
        exists k. repeat split; try lia; auto; try (apply Ht; assumption).
        -- apply Hfa. assumption.
        -- right. destruct (Hfa H) as [_ [->|Hk']]; [|exact Hk'].
           replace (i + 1 - 1) with i by lia. exact Hlt.
    + intros [= <- <-]. exists i. repeat split; try lia; try discriminate; auto.
Qed.

End EnsureTime.

(** X12. [ensureTime] polls the clock every 200 ms: it returns true at the
    first poll at which the clock is above the floor, before the timeout,
    and false at the first poll at or past the timeout, having found the
    clock invalid at every poll before; it never waits a whole poll
    interval beyond the timeout. *)
Theorem X12_ensureTime_polls (clock : Z -> Z) (start timeoutMs : Z) :
  0 <= timeoutMs ->
  exists k,
    snd (ensureTime clock start timeoutMs) = 200 * k /\ 0 <= k /\
    (forall j, 0 <= j < k -> poll_valid clock start j = false) /\
    (fst (ensureTime clock start timeoutMs) = true ->
     200 * k < timeoutMs /\ poll_valid clock start k = true) /\
    (fst (ensureTime clock start timeoutMs) = false ->
     timeoutMs <= 200 * k < timeoutMs + 200).
Proof.
  intros HT. unfold ensureTime.
  destruct (ensureTime_loop (S (Z.to_nat (timeoutMs / 200))) clock start 0 timeoutMs)
    as [ok el] eqn:E.
  change 0 with (200 * 0) in E at 1.
  assert (H1 : 0 <= 0) by lia.
  assert (H2 : timeoutMs - 200 * 0 <= 200 * Z.of_nat (S (Z.to_nat (timeoutMs / 200)))).
  { pose proof (Z.div_mod timeoutMs 200 ltac:(lia)).
    pose proof (Z.mod_pos_bound timeoutMs 200 ltac:(lia)).
    pose proof (Z.div_pos timeoutMs 200 HT ltac:(lia)).
    rewrite Nat2Z.inj_succ, Z2Nat.id by assumption. lia. }
  assert (H3 : forall j, 0 <= j < 0 -> poll_valid clock start j = false)
    by (intros j Hj; lia).
  destruct (ensureTime_loop_polls clock start timeoutMs _ 0 ok el H1 H2 H3 E)
    as (k & Hk & Hik & Hinv & Ht & Hfa).
  exists k. cbn [fst snd].
  split; [exact Hk|]. split; [exact Hik|]. split; [exact Hinv|].
  split; [exact Ht|].
  intros Hok. destruct (Hfa Hok) as [Hge [->|Hk']]; lia.
Qed.

Lemma X12_witness :
  exists k,
    snd (ensureTime (fun up => if up <? 1000 then 0 else 1800000000) 0 8000) = 200 * k /\
    0 <= k /\
    (forall j, 0 <= j < k ->
       poll_valid (fun up => if up <? 1000 then 0 else 1800000000) 0 j = false) /\
    (fst (ensureTime (fun up => if up <? 1000 then 0 else 1800000000) 0 8000) = true ->
     200 * k < 8000 /\
     poll_valid (fun up => if up <? 1000 then 0 else 1800000000) 0 k = true) /\
    (fst (ensureTime (fun up => if up <? 1000 then 0 else 1800000000) 0 8000) = false ->
     8000 <= 200 * k < 8000 + 200).
Proof.
  apply (X12_ensureTime_polls (fun up => if up <? 1000 then 0 else 1800000000) 0 8000).
  lia.
Defined.

(** ** The state after setup *)

Section Setup.



End Setup.



(** ** How lenient the field split is *)



(** ** The periodic compaction and the history query *)

(** X15. Whatever the compaction trigger does in a pass, a history query
    whose cutoff is not older than the retention window at that moment
    gets the same response as without it; in particular the default
    request (neither [since] nor [days]) made at the same or a later valid
    time. *)
Theorem X15_trigger_invisible_to_history (e : env) (d : device) :
  nowUtc e <= LONG_MAX ->
  (forall c, nowUtc e - KEEP_SECONDS <= c ->
     sendHistorySince c (flash (maybePrune e d)) = sendHistorySince c (flash d)) /\
  (forall (args : gmap string text) (nowT : Z),
     args !! "since" = None -> args !! "days" = None ->
     nowUtc e <= nowT <= LONG_MAX -> TIME_FLOOR < nowT ->
     handleHistory args nowT (flash (maybePrune e d)) = handleHistory args nowT (flash d)).
Proof.
  intros Hmax.
  assert (Hgen : forall c, nowUtc e - KEEP_SECONDS <= c ->
            sendHistorySince c (flash (maybePrune e d)) = sendHistorySince c (flash d)).
  { intros c Hc. unfold maybePrune.
    destruct (wrap_u32 (millis e - lastPruneMs d) <? PRUNE_EVERY_MS); [reflexivity|].
    destruct (Z.leb_spec (nowUtc e) TIME_FLOOR); [reflexivity|]. cbn [flash].
    apply sendHistorySince_after_prune. rewrite keep_cutoff by lia. exact Hc. }
  split; [exact Hgen|].
  intros args nowT Hs Hd Hnow Hvalid. unfold handleHistory. apply Hgen.
  unfold history_cutoff. rewrite Hs, Hd.
  destruct (Z.ltb_spec TIME_FLOOR nowT); [|lia].
  rewrite keep_cutoff by lia. lia.
Qed.

Lemma X15_witness :
  let e := mkenv 21600000 1800000000 S754_nan S754_nan in
  let d := mkdevice scenario_fs 0 0 in
  (forall c, nowUtc e - KEEP_SECONDS <= c ->
     sendHistorySince c (flash (maybePrune e d)) = sendHistorySince c (flash d)) /\
  (forall (args : gmap string text) (nowT : Z),
     args !! "since" = None -> args !! "days" = None ->
     nowUtc e <= nowT <= LONG_MAX -> TIME_FLOOR < nowT ->
     handleHistory args nowT (flash (maybePrune e d)) = handleHistory args nowT (flash d)).
Proof.
  intros e d. apply (X15_trigger_invisible_to_history e d).
  unfold LONG_MAX. simpl. lia.
Defined.

(** X16. Raising the cutoff of a history query only removes records: the
    records returned for a later cutoff are those returned for an earlier
    one that are at or after the later cutoff, in the same order. *)
Theorem X16_history_monotone_in_cutoff (fs : gmap string text) (c1 c2 : Z) :
  c1 <= c2 ->
  docs_of (chunks (sendHistorySince c2 fs)) =
  List.filter (fun d => c2 <=? ts d) (docs_of (chunks (sendHistorySince c1 fs))).
Proof.
  intros Hc. rewrite !sendHistorySince_docs.
  now rewrite filter_window_twice.
Qed.

Lemma X16_witness :
  docs_of (chunks (sendHistorySince 1100 scenario_fs)) =
  List.filter (fun d => 1100 <=? ts d) (docs_of (chunks (sendHistorySince 1060 scenario_fs))).
Proof.
  apply (X16_history_monotone_in_cutoff scenario_fs 1060 1100). lia.
Defined.
